(** * The Leaky, Competing Accumulator simulator ([src/LCA4/src/lcaC.c])

    A shallow embedding of [simulateLCA] and the properties its
    specification states about it.

    The C function works on [double] and [int].  The model is written once
    over an interface [Arith] of the arithmetic the source uses, and is
    instantiated twice:
    - [binary64]: IEEE 754 double precision (Rocq's primitive floats), the
      arithmetic the compiled C code runs on, each operation rounded to
      double;
    - [exact]: the real numbers, the arithmetic in which the specification
      reasons when it says that terms cancel "algebraically".

    Arrays are lists indexed with stdpp's lookup and insert.  Access past
    the end of an array is undefined in C; in the model a read there gives
    the default value and a write changes nothing.  The arrays [x] and
    [dummy] always hold [nAcc] cells, and the theorems about the output
    buffers assume that these hold a cell for every trial, as the caller
    guarantees.

    The counters are [int] in the source.  They are modelled in [Z] without
    wrap-around: [iter] stays between 0 and the larger of 1 and [maxiter]
    ([head_iter], [exit_facts]), and a response is at most [nAcc]. *)

From Stdlib Require Import ZArith Lia Bool Reals Lra Floats.
From stdpp Require Import base list.

Local Open Scope Z_scope.

(** ** Arithmetic of the source *)

Class Arith (F : Type) := {
  of_int : Z -> F;            (* (double) n *)
  fadd : F -> F -> F;
  fsub : F -> F -> F;
  fmul : F -> F -> F;
  fdiv : F -> F -> F;
  fsqrt : F -> F;             (* sqrt from math.h *)
  fge : F -> F -> bool;       (* a >= b *)
  flt : F -> F -> bool        (* a < b *)
}.

Declare Scope arith_scope.
Delimit Scope arith_scope with A.
Infix "+" := fadd : arith_scope.
Infix "-" := fsub : arith_scope.
Infix "*" := fmul : arith_scope.
Infix "/" := fdiv : arith_scope.

#[global] Instance Arith_inhabited {F} `{Arith F} : Inhabited F :=
  populate (of_int 0).

(** [(double) n] for an [int] n: exact, since |n| < 2^31 < 2^53. *)
Definition double_of_int (n : Z) : float :=
  if n <? 0 then PrimFloat.opp (PrimFloat.of_uint63 (Uint63.of_Z (- n)))
  else PrimFloat.of_uint63 (Uint63.of_Z n).

#[global] Instance binary64 : Arith float := {
  of_int := double_of_int;
  fadd := PrimFloat.add;
  fsub := PrimFloat.sub;
  fmul := PrimFloat.mul;
  fdiv := PrimFloat.div;
  fsqrt := PrimFloat.sqrt;
  fge a b := PrimFloat.leb b a;
  flt a b := PrimFloat.ltb a b
}.

#[global] Instance exact : Arith R := {
  of_int := IZR;
  fadd := Rplus;
  fsub := Rminus;
  fmul := Rmult;
  fdiv := Rdiv;
  fsqrt := R_sqrt.sqrt;
  fge a b := if Rle_dec b a then true else false;
  flt a b := if Rlt_dec a b then true else false
}.

(** ** Loops *)

(** [for (z = 0; z < n; z++) body]: the body runs at 0, 1, ..., n-1. *)
Fixpoint for_ {St : Type} (n : nat) (body : nat -> St -> St) (st : St) : St :=
  match n with
  | O => st
  | S k => body k (for_ k body st)
  end.

Section LCA.
Context {F : Type} {AF : Arith F}.
(** The generator state of R and [norm_rand()], which returns a draw and
    advances the state. *)
Context {G : Type}.
Variable norm_rand : G -> F * G.

(** The arguments of [simulateLCA] that are read only.  [I_] and [Z_] are
    the source's [I] and [Z]. *)
Record config := Config {
  nAcc : Z;
  I_ : list F;
  kappa : F;
  beta : F;
  Z_ : F;
  s : F;
  dt : F;
  maxiter : Z;
  nTrials : Z;
  nonLinear : Z;
  x0 : list F
}.

(** The variables the function writes: its locals, the two output buffers
    and the generator. *)
Record locals := Locals {
  x : list F;
  dummy : list F;
  sum : F;
  iter : Z;
  winner : bool;
  resp : list Z;
  rt : list F;
  rng : G
}.

Definition set_x v st := Locals v (dummy st) (sum st) (iter st) (winner st) (resp st) (rt st) (rng st).
Definition set_dummy v st := Locals (x st) v (sum st) (iter st) (winner st) (resp st) (rt st) (rng st).
Definition set_sum v st := Locals (x st) (dummy st) v (iter st) (winner st) (resp st) (rt st) (rng st).
Definition set_iter v st := Locals (x st) (dummy st) (sum st) v (winner st) (resp st) (rt st) (rng st).
Definition set_winner v st := Locals (x st) (dummy st) (sum st) (iter st) v (resp st) (rt st) (rng st).
Definition set_resp v st := Locals (x st) (dummy st) (sum st) (iter st) (winner st) v (rt st) (rng st).
Definition set_rt v st := Locals (x st) (dummy st) (sum st) (iter st) (winner st) (resp st) v (rng st).
Definition set_rng v st := Locals (x st) (dummy st) (sum st) (iter st) (winner st) (resp st) (rt st) v.

Variable c : config.

(** Line 47: the factor of the noise. *)
Definition rhs : F := fsqrt (dt c * s c * s c)%A.

Definition n_acc : nat := Z.to_nat (nAcc c).

(** Lines 54-67: the two arrays of the trial, filled from [x0].  C declares
    them without initial values; here they hold 0 until the loop has written
    every cell. *)
Definition init_arrays (st : locals) : locals :=
  let st := set_x (replicate n_acc (of_int 0)) st in
  let st := set_dummy (replicate n_acc (of_int 0)) st in
  for_ n_acc (fun z st =>
    let st := set_x (<[z := x0 c !!! z]> (x st)) st in
    set_dummy (<[z := x0 c !!! z]> (dummy st)) st) st.

(** Lines 73-76. *)
Definition scale_dummy (st : locals) : locals :=
  for_ n_acc (fun z st =>
    let st := set_dummy (<[z := x st !!! z]> (dummy st)) st in
    set_dummy (<[z := (dummy st !!! z * dt c * beta c)%A]> (dummy st)) st) st.

(** Lines 79-83. *)
Definition sum_dummy (st : locals) : locals :=
  let st := set_sum (of_int 0) st in
  for_ n_acc (fun a st => set_sum (sum st + dummy st !!! a)%A st) st.

(** Lines 86-88. *)
Definition update_x (st : locals) : locals :=
  for_ n_acc (fun z st =>
    let (v, g) := norm_rand (rng st) in
    let st := set_rng g st in
    set_x (<[z := (x st !!! z + dt c * (I_ c !!! z) - kappa c * (x st !!! z) * dt c
                   - sum st + dummy st !!! z + rhs * v)%A]> (x st)) st) st.

(** Lines 94-106, for trial [i]. *)
Definition check_winner (i : nat) (st : locals) : locals :=
  for_ n_acc (fun z st =>
    let st :=
      if fge (x st !!! z) (Z_ c)
      then set_winner true (set_resp (<[i := Z.of_nat z + 1]> (resp st)) st)
      else st in
    if nonLinear c =? 1
    then if flt (x st !!! z) (of_int 0)
         then set_x (<[z := of_int 0]> (x st)) st
         else st
    else st) st.

(** Lines 72-88: inhibition, then the update of every accumulator. *)
Definition integrate (st : locals) : locals :=
  update_x (sum_dummy (scale_dummy st)).

(** Lines 72-106: the body of the do-while loop. *)
Definition step (i : nat) (st : locals) : locals :=
  let st := integrate st in
  let st := set_iter (iter st + 1) st in
  check_winner i st.

(** Lines 70-107: [do body while (iter < maxiter && winner == false)].  The
    loop is bounded by its own counter; [None] is a run that needs more
    than [fuel] passes. *)
Fixpoint do_while (fuel : nat) (i : nat) (st : locals) : option locals :=
  match fuel with
  | O => None
  | S k =>
      let st := step i st in
      if (iter st <? maxiter c) && negb (winner st)
      then do_while k i st
      else Some st
  end.

(** Lines 51-67: the start of trial [i]. *)
Definition trial_start (i : nat) (st : locals) : locals :=
  let st := set_winner false st in
  let st := set_iter 0 st in
  let st := set_resp (<[i := -1]> (resp st)) st in
  init_arrays st.

(** Line 110. *)
Definition write_rt (i : nat) (st : locals) : locals :=
  set_rt (<[i := (of_int (iter st) * dt c - dt c / of_int 2)%A]> (rt st)) st.

(** Lines 51-110: trial [i]. *)
Definition trial (i : nat) (st : locals) : option locals :=
  match do_while (S (Z.to_nat (maxiter c))) i (trial_start i st) with
  | None => None
  | Some st => Some (write_rt i st)
  end.

(** Lines 50-112: the loop over trials. *)
Definition trials (n : nat) (st : locals) : option locals :=
  for_ n (fun i r => match r with Some st => trial i st | None => None end) (Some st).

End LCA.

Arguments config : clear implicits.
Arguments locals : clear implicits.

Section Batch.
Context {F : Type} {AF : Arith F} {G : Type}.
Variable norm_rand : G -> F * G.

(** The state in which the first trial is entered: the output buffers of
    the caller and the generator state that [GetRNGstate] loads.  The
    locals are not initialised yet; each trial sets them before it reads
    them. *)
Definition entry_state (resp0 : list Z) (rt0 : list F) (g : G) : locals F G :=
  Locals [] [] (of_int 0) 0 false resp0 rt0 g.

(** [simulateLCA]: returns the two buffers and the generator state that
    [PutRNGstate] stores. *)
Definition simulateLCA (c : config F) (resp0 : list Z) (rt0 : list F) (g : G)
  : option (list Z * list F * G) :=
  match trials norm_rand c (Z.to_nat (nTrials c)) (entry_state resp0 rt0 g) with
  | Some st => Some (resp st, rt st, rng st)
  | None => None
  end.
End Batch.

(** ** Notions used to state the properties *)

Section Notions.
Context {F : Type} {AF : Arith F} {G : Type}.
Variable norm_rand : G -> F * G.
Variable c : config F.
Implicit Type st : locals F G.

Abbreviation n := (n_acc c).

(** The generator after [k] calls of [norm_rand], and the value of the
    call after those. *)
Fixpoint rng_after (k : nat) (g : G) : G :=
  match k with
  | O => g
  | S k' => snd (norm_rand (rng_after k' g))
  end.

Definition draw (k : nat) (g : G) : F := fst (norm_rand (rng_after k g)).

(** The sum the loop of lines 79-83 forms: from 0, left to right. *)
Fixpoint sum_upto (k : nat) (d : list F) : F :=
  match k with
  | O => of_int 0
  | S k' => (sum_upto k' d + d !!! k')%A
  end.

(** The highest index below [k] whose value reaches the threshold. *)
Fixpoint last_crossing (xs : list F) (k : nat) : option nat :=
  match k with
  | O => None
  | S k' => if fge (xs !!! k') (Z_ c) then Some k' else last_crossing xs k'
  end.

(** Lines 101-105 on one value. *)
Definition clamp (v : F) : F :=
  if nonLinear c =? 1 then if flt v (of_int 0) then of_int 0 else v else v.

(** The test of line 107. *)
Definition continue st : bool := (iter st <? maxiter c) && negb (winner st).

(** [loop_head i st0 st]: in the trial [i] entered in [st0], [st] stands at
    the head of the do-while loop, before a pass. *)
Record loop_head (i : nat) (st0 st : locals F G) : Prop := {
  head_x : length (x st) = n;
  head_dummy : length (dummy st) = n;
  head_winner : winner st = false;
  head_resp : resp st = <[i := -1]> (resp st0);
  head_rt : rt st = rt st0;
  head_iter : 0 <= iter st /\ (iter st = 0 \/ iter st < maxiter c)
}.

(** The reaction time of line 110 for a loop that ended at counter [k]. *)
Definition midpoint (k : Z) : F := (of_int k * dt c - dt c / of_int 2)%A.

(** [pass_of i st0 st]: the run of trial [i] entered in [st0] comes to the
    head of its do-while loop in the state [st], and makes a pass from it. *)
Inductive pass_of (i : nat) (st0 : locals F G) : locals F G -> Prop :=
| pass_first : pass_of i st0 (trial_start c i st0)
| pass_next st :
    pass_of i st0 st ->
    continue (step norm_rand c i st) = true ->
    pass_of i st0 (step norm_rand c i st).

(** [final_pass resp0 rt0 g i pre]: in the run of the batch from these
    buffers and this generator state, trial [i] enters the last pass of its
    loop in the state [pre]: the run comes to [pre], and the loop returns the
    state [step i pre] that the pass from [pre] leaves. *)
Definition final_pass (resp0 : list Z) (rt0 : list F) (g : G) (i : nat)
    (pre : locals F G) : Prop :=
  exists sti,
    trials norm_rand c i (entry_state resp0 rt0 g) = Some sti /\
    pass_of i sti pre /\
    do_while norm_rand c (S (Z.to_nat (maxiter c))) i (trial_start c i sti)
      = Some (step norm_rand c i pre).

(** The update of one pass as the specification words it, on the values
    [xs] of the accumulators before the pass: the contribution of each
    accumulator to the inhibition, their total, and the new value of
    accumulator [z] for the draw [w].  The product of [dt], [kappa] and
    [x[z]] is formed as the source forms it, [kappa * x[z] * dt]. *)
Definition contribution (xs : list F) : list F :=
  (fun v => v * dt c * beta c)%A <$> xs.

Definition total_inhibition (xs : list F) : F :=
  sum_upto n (contribution xs).

Definition lca_update (xs : list F) (z : nat) (w : F) : F :=
  (xs !!! z + dt c * (I_ c !!! z) - kappa c * (xs !!! z) * dt c
   - total_inhibition xs + contribution xs !!! z + rhs c * w)%A.
End Notions.

(** ** Two runs side by side *)

(** [both R o1 o2]: the two runs return, with results related by [R]. *)
Definition both {A B : Type} (R : A -> B -> Prop) (o1 : option A) (o2 : option B) : Prop :=
  match o1, o2 with
  | Some a, Some b => R a b
  | _, _ => False
  end.

(** [related E RG k st1 st2]: two runs stand at the same point of the
    function: same counter, flag and buffers, [k] accumulators each, with
    values related by [E], and generator states related by [RG]. *)
Definition related {F : Type} {AF : Arith F} {G1 G2 : Type}
    (E : F -> F -> Prop) (RG : G1 -> G2 -> Prop) (k : nat)
    (st1 : locals F G1) (st2 : locals F G2) : Prop :=
  (length (x st1) = k /\ length (dummy st1) = k) /\
  (length (x st2) = k /\ length (dummy st2) = k) /\
  (forall z, (z < k)%nat -> E (x st1 !!! z) (x st2 !!! z)) /\
  iter st1 = iter st2 /\ winner st1 = winner st2 /\
  resp st1 = resp st2 /\ rt st1 = rt st2 /\ RG (rng st1) (rng st2).

(** The same between trials, when only the buffers and the generator are
    live. *)
Definition same_report {F : Type} {G1 G2 : Type} (RG : G1 -> G2 -> Prop)
    (st1 : locals F G1) (st2 : locals F G2) : Prop :=
  resp st1 = resp st2 /\ rt st1 = rt st2 /\ RG (rng st1) (rng st2).

(** What two runs of the batch return. *)
Definition same_output {F : Type} {G1 G2 : Type} (RG : G1 -> G2 -> Prop)
    (o1 : list Z * list F * G1) (o2 : list Z * list F * G2) : Prop :=
  o1.1.1 = o2.1.1 /\ o1.1.2 = o2.1.2 /\ RG o1.2 o2.2.

(** The configuration [c] with the inhibition [b]. *)
Definition with_beta {F : Type} (b : F) (c : config F) : config F :=
  Config (nAcc c) (I_ c) (kappa c) b (Z_ c) (s c) (dt c) (maxiter c) (nTrials c)
    (nonLinear c) (x0 c).

(** Two doubles with the same value: the same double, or two zeros, of
    either sign ([-0.0 == 0.0] in C). *)
Definition sf_same (A B : spec_float) : Prop :=
  A = B \/ exists sa sb, A = S754_zero sa /\ B = S754_zero sb.

Definition same_value (a b : float) : Prop := sf_same (Prim2SF a) (Prim2SF b).

(** A double that is a zero or NaN. *)
Definition sf_quiet (A : spec_float) : Prop :=
  A = S754_nan \/ exists sa, A = S754_zero sa.

(** ** Inputs of the examples *)

(** The fields of a configuration come in the order of the arguments of the
    source: [nAcc], [I], [kappa], [beta], [Z], [s], [dt], [maxiter],
    [nTrials], [nonLinear], [x0].  All numbers below are doubles without
    rounding. *)

(** A generator for the examples: its state counts the calls, and the
    draws alternate between 0.5 and -0.75. *)
Definition counter_rand (k : nat) : float * nat :=
  ((if Nat.even k then 0.5 else -0.75)%float, S k).

(** A generator over the real numbers: every draw is 1. *)
Definition ones (k : nat) : R * nat := (1%R, S k).

(** Two accumulators with noise and the clamp, three trials of at most eight
    passes. *)
Definition demo : config float :=
  Config 2 [0.5; 0.25]%float 0.125%float 0.25%float 1%float 0.5%float
    0.125%float 8 3 1 [0; 0]%float.

(** Two accumulators with the same input and the same start, and no noise:
    both reach the threshold 0.5 in the first pass. *)
Definition tie : config float :=
  Config 2 [1; 1]%float 0%float 0%float 0.5%float 0%float 1%float 4 1 0 [0; 0]%float.

(** One accumulator that reaches the threshold 0.5 in the only pass that
    [maxiter = 1] allows. *)
Definition last_pass : config float :=
  Config 1 [1]%float 0%float 0%float 0.5%float 0%float 1%float 1 1 0 [0]%float.

(** The step size [dt = 3 * 2^-1074], a subnormal double: its half is not a
    double, and [dt / 2] rounds to [2^-1073]. *)
Definition tiny_dt : config float :=
  Config 1 [0]%float 0%float 0%float 1%float 0%float 0x3p-1074%float 1 1 0 [0]%float.

(** The noise scale [s = 2^-600] with [dt = 1]: the product [dt*s*s] is
    below the smallest double and rounds to 0. *)
Definition small_noise : config float :=
  Config 1 [0]%float 0%float 0%float 1%float 0x1p-600%float 1%float 1 1 0 [0]%float.

(** One accumulator with the clamp and no noise, whose first update
    overflows: with [x0 = I = 2^1023], [kappa = 2] and [dt = 1], both
    [x + dt*I] and [kappa*x*dt] are infinite, and their difference is NaN. *)
Definition overflow : config float :=
  Config 1 [0x1p1023]%float 2%float 0%float 0.5%float 0%float 1%float 3 1 1
    [0x1p1023]%float.

(** One accumulator that starts at 1, above the threshold 0.5, with no
    input, no leak, no noise and [beta = 0], in a trial of one pass. *)
Definition lone : config float :=
  Config 1 [0]%float 0%float 0%float 0.5%float 0%float 1%float 1 1 0 [1]%float.

(** One accumulator that starts at the double next to 1.3, with no input, no
    leak and no noise, far below the threshold 8. *)
Definition drift : config float :=
  Config 1 [0]%float 0%float 0%float 8%float 0%float 1%float 4 1 0
    [0x1.4cccccccccccdp+0]%float.

(** ** Notions for further properties *)

(** The configuration [c] with [k] trials, and with the noise scale [v]. *)
Definition with_nTrials {F : Type} (k : Z) (c : config F) : config F :=
  Config (nAcc c) (I_ c) (kappa c) (beta c) (Z_ c) (s c) (dt c) (maxiter c) k
    (nonLinear c) (x0 c).

Definition with_s {F : Type} (v : F) (c : config F) : config F :=
  Config (nAcc c) (I_ c) (kappa c) (beta c) (Z_ c) v (dt c) (maxiter c) (nTrials c)
    (nonLinear c) (x0 c).

(** The sum of the cells of [d] below [k] other than cell [z], from 0, left
    to right. *)
Fixpoint sum_others {F : Type} {AF : Arith F} (k : nat) (d : list F) (z : nat) : F :=
  match k with
  | O => of_int 0
  | S k' => if Nat.eqb k' z then sum_others k' d z
            else (sum_others k' d z + d !!! k')%A
  end.

(** A configuration with [maxiter = 0]: two accumulators far below the
    threshold 8, two trials. *)
Definition no_budget : config float :=
  Config 2 [0.5; 0.25]%float 0.125%float 0.25%float 8%float 0.5%float
    0.125%float 0 2 0 [0; 0]%float.

(** A configuration whose threshold is NaN. *)
Definition nan_threshold : config float :=
  Config 2 [1; 1]%float 0%float 0%float nan 0.5%float 1%float 3 2 0 [4; 4]%float.

(** ** Values of doubles *)




(** Halving [d] is exact in double precision: [d/2 + d/2 == d]. *)
Definition half_exact (d : float) : bool := (d / 2 + d / 2 =? d)%float.

(** ** Reasoning about the loops *)

(** Invariant rule of [for_]: [P k] holds before pass [k]. *)
Lemma for_inv {St : Type} (P : nat -> St -> Prop) n body (st : St) :
  P 0%nat st ->
  (forall k a, (k < n)%nat -> P k a -> P (S k) (body k a)) ->
  P n (for_ n body st).
Proof.
  intros H0 Hs. induction n as [|n IH]; simpl; [exact H0|].
  apply Hs; [lia|]. apply IH. intros k a Hk. apply Hs. lia.
Qed.

(** [for_with P]: prove [P k] invariant for the loop in the goal, then use
    [P n] of its result, named [Hinv]. *)
Ltac for_with P :=
  match goal with
  | |- context [for_ ?n ?b ?a] =>
      assert (Hinv : P n (for_ n b a)); [apply (for_inv P) | ]
  end.

Section Frames.
Context {F : Type} {AF : Arith F} {G : Type}.
Variable norm_rand : G -> F * G.
Variable c : config F.
Implicit Type st : locals F G.

Lemma scale_dummy_frame st :
  scale_dummy c st = set_dummy (dummy (scale_dummy c st)) st.
Proof.
  unfold scale_dummy.
  apply (for_inv (fun _ a => a = set_dummy (dummy a) st)).
  - by destruct st.
  - intros k a _ ->. reflexivity.
Qed.

Lemma sum_dummy_frame st :
  sum_dummy c st = set_sum (sum (sum_dummy c st)) st.
Proof.
  unfold sum_dummy.
  apply (for_inv (fun _ a => a = set_sum (sum a) st)).
  - by destruct st.
  - intros k a _ ->. reflexivity.
Qed.

Lemma update_x_frame st :
  update_x norm_rand c st =
  set_rng (rng (update_x norm_rand c st)) (set_x (x (update_x norm_rand c st)) st).
Proof.
  unfold update_x.
  apply (for_inv (fun _ a => a = set_rng (rng a) (set_x (x a) st))).
  - by destruct st.
  - intros k a _ ->. simpl. by destruct (norm_rand _).
Qed.

Lemma check_winner_frame i st :
  check_winner c i st =
  set_x (x (check_winner c i st))
    (set_winner (winner (check_winner c i st))
       (set_resp (resp (check_winner c i st)) st)).
Proof.
  unfold check_winner.
  apply (for_inv (fun _ a => a = set_x (x a) (set_winner (winner a) (set_resp (resp a) st)))).
  - by destruct st.
  - intros k a _ ->. simpl.
    repeat (case_match; simpl); reflexivity.
Qed.

Lemma init_arrays_frame st :
  init_arrays c st =
  set_dummy (dummy (init_arrays c st)) (set_x (x (init_arrays c st)) st).
Proof.
  unfold init_arrays.
  apply (for_inv (fun _ a => a = set_dummy (dummy a) (set_x (x a) st))).
  - by destruct st.
  - intros k a _ ->. reflexivity.
Qed.
End Frames.

(** ** What each loop computes *)

Section Loops.
Context {F : Type} {AF : Arith F} {G : Type}.
Variable norm_rand : G -> F * G.
Variable c : config F.
Implicit Type st : locals F G.

Abbreviation n := (n_acc c).


Lemma init_arrays_spec st :
  let st' := init_arrays c st in
  length (x st') = n /\ length (dummy st') = n /\
  forall z, (z < n)%nat -> x st' !!! z = x0 c !!! z.
Proof.
  unfold init_arrays.
  apply (for_inv (fun k a =>
    length (x a) = n /\ length (dummy a) = n /\
    forall z, (z < k)%nat -> x a !!! z = x0 c !!! z)).
  - simpl. rewrite !length_replicate. split_and!; [done | done | intros; lia].
  - intros k a Hk (Hx & Hd & Hz). simpl. rewrite !length_insert.
    split_and!; try assumption.
    intros z Hzk. destruct (decide (z = k)) as [->|Hne].
    + apply list_lookup_total_insert_eq. lia.
    + rewrite list_lookup_total_insert_ne by done. apply Hz. lia.
Qed.

Lemma scale_dummy_spec st :
  length (dummy st) = n ->
  let st' := scale_dummy c st in
  length (dummy st') = n /\
  forall z, (z < n)%nat -> dummy st' !!! z = (x st !!! z * dt c * beta c)%A.
Proof.
  intros Hd. unfold scale_dummy.
  for_with (fun (k : nat) (a : locals F G) =>
    x a = x st /\ length (dummy a) = n /\
    forall z, (z < k)%nat -> dummy a !!! z = (x st !!! z * dt c * beta c)%A).
  - split_and!; try done; intros; lia.
  - intros k a Hk (Hx & Hl & Hz). simpl. rewrite !length_insert.
    split_and!; try assumption.
    intros z Hzk. destruct (decide (z = k)) as [->|Hne].
    + rewrite list_lookup_total_insert_eq by (rewrite length_insert; lia).
      rewrite list_lookup_total_insert_eq by lia. by rewrite Hx.
    + rewrite !list_lookup_total_insert_ne by done. apply Hz. lia.
  - destruct Hinv as (_ & Hl & Hz). auto.
Qed.

Lemma sum_dummy_spec st :
  sum (sum_dummy c st) = sum_upto n (dummy st).
Proof.
  unfold sum_dummy.
  for_with (fun (k : nat) (a : locals F G) => dummy a = dummy st /\ sum a = sum_upto k (dummy st)).
  - done.
  - intros k a _ [Hd Hs]. simpl. by rewrite Hd, Hs.
  - apply Hinv.
Qed.

Lemma update_x_spec st :
  length (x st) = n ->
  let st' := update_x norm_rand c st in
  length (x st') = n /\ rng st' = rng_after norm_rand n (rng st) /\
  forall z, (z < n)%nat ->
    x st' !!! z =
    (x st !!! z + dt c * (I_ c !!! z) - kappa c * (x st !!! z) * dt c
     - sum st + dummy st !!! z + rhs c * draw norm_rand z (rng st))%A.
Proof.
  intros Hx. unfold update_x.
  for_with (fun (k : nat) (a : locals F G) =>
    (sum a = sum st /\ dummy a = dummy st /\ rng a = rng_after norm_rand k (rng st)) /\
    length (x a) = n /\
    (forall z, (k <= z)%nat -> x a !!! z = x st !!! z) /\
    forall z, (z < k)%nat ->
      x a !!! z =
      (x st !!! z + dt c * (I_ c !!! z) - kappa c * (x st !!! z) * dt c
       - sum st + dummy st !!! z + rhs c * draw norm_rand z (rng st))%A).
  - split_and!; try done; intros; lia.
  - intros k a Hk ((Hs & Hd & Hg) & Hl & Hge & Hlt).
    unfold draw. simpl. rewrite <- Hg.
    destruct (norm_rand (rng a)) as [v g'] eqn:E. simpl.
    rewrite length_insert. split_and!; try assumption; try reflexivity.
    + intros z Hz. rewrite list_lookup_total_insert_ne by lia. apply Hge. lia.
    + intros z Hz. destruct (decide (z = k)) as [->|Hne].
      * rewrite list_lookup_total_insert_eq by lia.
        rewrite (Hge k) by lia. rewrite Hs, Hd, <- Hg, E. reflexivity.
      * rewrite list_lookup_total_insert_ne by done. apply Hlt. lia.
  - destruct Hinv as ((_ & _ & Hg) & Hl & _ & Hlt). auto.
Qed.
Lemma check_winner_spec i st :
  length (x st) = n ->
  let st' := check_winner c i st in
  length (x st') = n /\
  (forall z, (z < n)%nat -> x st' !!! z = clamp c (x st !!! z)) /\
  match last_crossing c (x st) n with
  | Some z => winner st' = true /\ resp st' = <[i := Z.of_nat z + 1]> (resp st)
  | None => winner st' = winner st /\ resp st' = resp st
  end.
Proof.
  intros Hx. unfold check_winner.
  for_with (fun (k : nat) (a : locals F G) =>
    length (x a) = n /\
    (forall z, (z < k)%nat -> x a !!! z = clamp c (x st !!! z)) /\
    (forall z, (k <= z)%nat -> x a !!! z = x st !!! z) /\
    match last_crossing c (x st) k with
    | Some z => winner a = true /\ resp a = <[i := Z.of_nat z + 1]> (resp st)
    | None => winner a = winner st /\ resp a = resp st
    end).
  - split_and!; try done; intros; lia.
  - intros k a Hk (Hl & Hlt & Hge & Hw).
    assert (Hclamp : forall a' : locals F G, x a' = x a ->
      let a'' := if nonLinear c =? 1
                 then if flt (x a' !!! k) (of_int 0)
                      then set_x (<[k := of_int 0]> (x a')) a' else a'
                 else a' in
      (winner a'' = winner a' /\ resp a'' = resp a') /\
      length (x a'') = n /\
      (forall z, (z < S k)%nat -> x a'' !!! z = clamp c (x st !!! z)) /\
      (forall z, (S k <= z)%nat -> x a'' !!! z = x st !!! z)).
    { intros a' Ha'. simpl. rewrite Ha'.
      assert (Hk' : forall z, (z < S k)%nat -> z <> k -> (z < k)%nat) by lia.
      unfold clamp in *. rewrite (Hge k) by lia.
      destruct (nonLinear c =? 1); [destruct (flt (x st !!! k) (of_int 0)) eqn:Ef|];
        simpl; rewrite ?length_insert, ?Ha'; split_and!; try done.
      - intros z Hz. destruct (decide (z = k)) as [->|Hne].
        + rewrite list_lookup_total_insert_eq by lia. by rewrite Ef.
        + rewrite list_lookup_total_insert_ne by done. auto.
      - intros z Hz. rewrite list_lookup_total_insert_ne by lia. apply Hge. lia.
      - intros z Hz. destruct (decide (z = k)) as [->|Hne].
        + rewrite Ef. apply Hge. lia.
        + auto.
      - intros z Hz. apply Hge. lia.
      - intros z Hz. destruct (decide (z = k)) as [->|Hne]; [apply Hge; lia | auto].
      - intros z Hz. apply Hge. lia. }
    cbv beta zeta. simpl last_crossing. rewrite (Hge k) by lia.
    destruct (fge (x st !!! k) (Z_ c)); cbv iota.
    + destruct (Hclamp (set_winner true (set_resp (<[i:=Z.of_nat k + 1]> (resp a)) a)) eq_refl)
        as ((Hw' & Hr') & H1 & H2 & H3).
      split_and!; try assumption.
      rewrite Hr'. simpl.
      destruct (last_crossing c (x st) k); destruct Hw as [_ ->];
        [apply list_insert_insert_eq | reflexivity].
    + destruct (Hclamp a eq_refl) as ((Hw' & Hr') & H1 & H2 & H3).
      split_and!; try assumption.
      rewrite Hw', Hr'. exact Hw.
  - destruct Hinv as (Hl & Hlt & _ & Hw). auto.
Qed.

Lemma last_crossing_Some xs k z :
  last_crossing c xs k = Some z ->
  (z < k)%nat /\ fge (xs !!! z) (Z_ c) = true /\
  forall z', (z < z')%nat -> (z' < k)%nat -> fge (xs !!! z') (Z_ c) = false.
Proof.
  induction k as [|k IH]; simpl; [done|].
  destruct (fge (xs !!! k) (Z_ c)) eqn:E.
  - intros [= <-]. split_and!; [lia | done | intros; lia].
  - intros H. destruct (IH H) as (Hz & Hc & Hn). split_and!; [lia | done |].
    intros z' Hz1 Hz2. destruct (decide (z' = k)) as [->|Hne]; [done|].
    apply Hn; lia.
Qed.

Lemma last_crossing_None xs k :
  last_crossing c xs k = None <->
  forall z, (z < k)%nat -> fge (xs !!! z) (Z_ c) = false.
Proof.
  induction k as [|k IH]; simpl.
  - split; [intros; lia | done].
  - destruct (fge (xs !!! k) (Z_ c)) eqn:E.
    + split; [done|]. intros H. specialize (H k). rewrite E in H.
      discriminate H. lia.
    + rewrite IH. split; intros H z Hz.
      * destruct (decide (z = k)) as [->|Hne]; [done | apply H; lia].
      * apply H. lia.
Qed.

Lemma last_crossing_highest xs k z :
  (z < k)%nat -> fge (xs !!! z) (Z_ c) = true ->
  (forall z', (z < z')%nat -> (z' < k)%nat -> fge (xs !!! z') (Z_ c) = false) ->
  last_crossing c xs k = Some z.
Proof.
  intros Hz Hc Hn. destruct (last_crossing c xs k) as [w|] eqn:E.
  - apply last_crossing_Some in E as (Hw & Hcw & Hnw).
    destruct (Nat.lt_trichotomy z w) as [Hlt | [-> | Hgt]]; [|done|].
    + rewrite (Hn w) in Hcw by done. discriminate.
    + rewrite (Hnw z) in Hc by done. discriminate.
  - rewrite last_crossing_None in E. rewrite (E z) in Hc by done. discriminate.
Qed.
End Loops.

(** ** One pass of the do-while loop *)

Section Step.
Context {F : Type} {AF : Arith F} {G : Type}.
Variable norm_rand : G -> F * G.
Variable c : config F.
Implicit Type st : locals F G.

Abbreviation n := (n_acc c).

Lemma inhibition_frame st :
  sum_dummy c (scale_dummy c st)
  = set_sum (sum (sum_dummy c (scale_dummy c st)))
      (set_dummy (dummy (scale_dummy c st)) st).
Proof.
  rewrite sum_dummy_frame at 1. f_equal. apply scale_dummy_frame.
Qed.

Lemma integrate_frame st :
  iter (integrate norm_rand c st) = iter st /\
  winner (integrate norm_rand c st) = winner st /\
  resp (integrate norm_rand c st) = resp st /\
  rt (integrate norm_rand c st) = rt st.
Proof.
  unfold integrate. rewrite update_x_frame. simpl.
  rewrite sum_dummy_frame. simpl. rewrite scale_dummy_frame. done.
Qed.

Lemma integrate_rng st :
  length (x st) = n ->
  rng (integrate norm_rand c st) = rng_after norm_rand n (rng st).
Proof.
  intros Hx. unfold integrate.
  pose proof (inhibition_frame st) as Hf.
  destruct (update_x_spec norm_rand c (sum_dummy c (scale_dummy c st))) as (_ & -> & _).
  - by rewrite Hf.
  - by rewrite Hf.
Qed.

Lemma integrate_length st :
  length (x st) = n -> length (dummy st) = n ->
  length (x (integrate norm_rand c st)) = n /\
  length (dummy (integrate norm_rand c st)) = n.
Proof.
  intros Hx Hd. unfold integrate.
  assert (Hx' : x (sum_dummy c (scale_dummy c st)) = x st).
  { rewrite sum_dummy_frame. simpl. by rewrite scale_dummy_frame. }
  destruct (update_x_spec norm_rand c (sum_dummy c (scale_dummy c st))) as (Hl & _ & _);
    [by rewrite Hx'|].
  split; [exact Hl|].
  rewrite update_x_frame. simpl. rewrite sum_dummy_frame. simpl.
  by apply scale_dummy_spec.
Qed.

(** The accumulators after lines 72-88, from the values before them. *)
Lemma integrate_x st z :
  length (x st) = n -> length (dummy st) = n -> (z < n)%nat ->
  x (integrate norm_rand c st) !!! z =
  (x st !!! z + dt c * (I_ c !!! z) - kappa c * (x st !!! z) * dt c
   - sum_upto n (dummy (scale_dummy c st)) + x st !!! z * dt c * beta c
   + rhs c * draw norm_rand z (rng st))%A.
Proof.
  intros Hx Hd Hz. unfold integrate.
  pose proof (inhibition_frame st) as Hf.
  destruct (update_x_spec norm_rand c (sum_dummy c (scale_dummy c st))) as (_ & _ & Hu).
  { by rewrite Hf. }
  rewrite (Hu z Hz). rewrite sum_dummy_spec. rewrite Hf. simpl.
  destruct (scale_dummy_spec c st Hd) as (_ & Hs). by rewrite (Hs z Hz).
Qed.

Lemma step_iter i st : iter (step norm_rand c i st) = iter st + 1.
Proof.
  unfold step. rewrite check_winner_frame. simpl.
  by destruct (integrate_frame st) as (-> & _).
Qed.

Lemma step_rt i st : rt (step norm_rand c i st) = rt st.
Proof.
  unfold step. rewrite check_winner_frame. simpl.
  by destruct (integrate_frame st) as (_ & _ & _ & ->).
Qed.

Lemma step_rng i st :
  length (x st) = n ->
  rng (step norm_rand c i st) = rng_after norm_rand n (rng st).
Proof.
  intros Hx. unfold step. rewrite check_winner_frame. simpl.
  by apply integrate_rng.
Qed.

Lemma step_length i st :
  length (x st) = n -> length (dummy st) = n ->
  length (x (step norm_rand c i st)) = n /\
  length (dummy (step norm_rand c i st)) = n.
Proof.
  intros Hx Hd. destruct (integrate_length st Hx Hd) as [Hx' Hd'].
  unfold step. split.
  - by apply check_winner_spec.
  - rewrite check_winner_frame. simpl. exact Hd'.
Qed.

(** The accumulators after a pass: the updated values, clamped. *)
Lemma step_x i st z :
  length (x st) = n -> length (dummy st) = n -> (z < n)%nat ->
  x (step norm_rand c i st) !!! z = clamp c (x (integrate norm_rand c st) !!! z).
Proof.
  intros Hx Hd Hz. destruct (integrate_length st Hx Hd) as [Hx' Hd'].
  unfold step.
  destruct (check_winner_spec c i
              (set_iter (iter (integrate norm_rand c st) + 1) (integrate norm_rand c st)))
    as (_ & Hc & _); [exact Hx'|].
  by rewrite (Hc z Hz).
Qed.

(** The winner flag and the response buffer after a pass. *)
Lemma step_winner i st :
  length (x st) = n -> length (dummy st) = n ->
  match last_crossing c (x (integrate norm_rand c st)) n with
  | Some z => winner (step norm_rand c i st) = true /\
              resp (step norm_rand c i st) = <[i := Z.of_nat z + 1]> (resp st)
  | None => winner (step norm_rand c i st) = winner st /\
            resp (step norm_rand c i st) = resp st
  end.
Proof.
  intros Hx Hd. destruct (integrate_length st Hx Hd) as [Hx' Hd'].
  destruct (integrate_frame st) as (_ & Hw & Hr & _).
  unfold step.
  destruct (check_winner_spec c i
              (set_iter (iter (integrate norm_rand c st) + 1) (integrate norm_rand c st)))
    as (_ & _ & Hc); [exact Hx'|].
  simpl in Hc. by rewrite Hw, Hr in Hc.
Qed.
End Step.

(** ** The do-while loop and a trial *)

Section Trial.
Context {F : Type} {AF : Arith F} {G : Type}.
Variable norm_rand : G -> F * G.
Variable c : config F.
Implicit Type st : locals F G.

Abbreviation n := (n_acc c).


Lemma trial_start_head i st : loop_head c i st (trial_start c i st).
Proof.
  unfold trial_start.
  destruct (init_arrays_spec c
    (set_resp (<[i:=-1]> (resp st)) (set_iter 0 (set_winner false st)))) as (Hx & Hd & _).
  split; try assumption; rewrite init_arrays_frame; simpl; auto with lia.
Qed.

Lemma step_head i st0 st :
  loop_head c i st0 st ->
  continue c (step norm_rand c i st) = true ->
  loop_head c i st0 (step norm_rand c i st).
Proof.
  intros [Hx Hd Hw Hr Ht Hi] Hc.
  apply andb_true_iff in Hc as [Hlt Hnw].
  apply Z.ltb_lt in Hlt. apply negb_true_iff in Hnw.
  destruct (step_length norm_rand c i st Hx Hd) as [Hx' Hd'].
  pose proof (step_winner norm_rand c i st Hx Hd) as Hs.
  split; try assumption.
  - destruct (last_crossing c _ n); destruct Hs as [Hs1 Hs2]; [congruence|].
    by rewrite Hs2.
  - by rewrite step_rt.
  - rewrite step_iter in *. lia.
Qed.

Lemma pass_head i st0 st : pass_of norm_rand c i st0 st -> loop_head c i st0 st.
Proof.
  induction 1 as [|st _ IH Hc]; [apply trial_start_head | by apply step_head].
Qed.

Lemma do_while_exit i st0 fuel st st' :
  pass_of norm_rand c i st0 st ->
  do_while norm_rand c fuel i st = Some st' ->
  exists pre,
    pass_of norm_rand c i st0 pre /\ st' = step norm_rand c i pre /\
    continue c st' = false.
Proof.
  revert st. induction fuel as [|fuel IH]; intros st Hp; simpl; [done|].
  fold (continue c (step norm_rand c i st)).
  destruct (continue c (step norm_rand c i st)) eqn:E.
  - apply IH. by apply pass_next.
  - intros [= <-]. by exists st.
Qed.

Lemma do_while_total i fuel st :
  (1 <= fuel)%nat -> maxiter c - iter st <= Z.of_nat fuel ->
  exists st', do_while norm_rand c fuel i st = Some st'.
Proof.
  revert st. induction fuel as [|fuel IH]; intros st H1 H2; [lia|]. simpl.
  destruct (_ && _) eqn:E; [|by eexists].
  apply andb_true_iff in E as [Hlt _]. apply Z.ltb_lt in Hlt.
  rewrite step_iter in Hlt.
  apply IH; rewrite ?step_iter; lia.
Qed.

(** A trial always returns. *)
Lemma trial_total i st : exists st', trial norm_rand c i st = Some st'.
Proof.
  unfold trial.
  destruct (do_while_total i (S (Z.to_nat (maxiter c))) (trial_start c i st)) as [st' ->].
  - lia.
  - destruct (trial_start_head i st) as [_ _ _ _ _ Hi]. lia.
  - by eexists.
Qed.

(** The state in which the loop of a trial ends: the result of a pass
    [step i pre] after which the test of line 107 fails. *)
Lemma trial_exit i st st' :
  trial norm_rand c i st = Some st' ->
  exists pre,
    pass_of norm_rand c i st pre /\ continue c (step norm_rand c i pre) = false /\
    do_while norm_rand c (S (Z.to_nat (maxiter c))) i (trial_start c i st)
      = Some (step norm_rand c i pre) /\
    st' = write_rt c i (step norm_rand c i pre).
Proof.
  unfold trial.
  destruct (do_while _ _ _ _ _) as [last|] eqn:E; [|done].
  intros [= <-].
  destruct (do_while_exit i st _ _ _ (pass_first norm_rand c i st) E)
    as (pre & Hp & -> & Hc).
  by exists pre.
Qed.

(** Counter, flag and response when the loop has ended. *)
Lemma exit_facts i st0 pre :
  loop_head c i st0 pre ->
  continue c (step norm_rand c i pre) = false ->
  let last := step norm_rand c i pre in
  1 <= iter last /\ (iter last = 1 \/ iter last <= maxiter c) /\
  rt last = rt st0 /\
  match last_crossing c (x (integrate norm_rand c pre)) n with
  | Some z => winner last = true /\ resp last = <[i := Z.of_nat z + 1]> (resp st0)
  | None => winner last = false /\ maxiter c <= iter last /\
            resp last = <[i := -1]> (resp st0)
  end.
Proof.
  intros [Hx Hd Hw Hr Ht Hi] Hc last.
  pose proof (step_winner norm_rand c i pre Hx Hd) as Hs.
  unfold last. rewrite step_iter, step_rt. split_and!; [lia | lia | done |].
  destruct (last_crossing c _ n).
  - destruct Hs as [Hs1 Hs2]. rewrite Hs2, Hr. split; [done|].
    apply list_insert_insert_eq.
  - destruct Hs as [Hs1 Hs2]. rewrite Hs1, Hs2, Hw, Hr. split_and!; try done.
    unfold continue in Hc. rewrite Hs1, Hw, andb_true_r in Hc.
    apply Z.ltb_ge in Hc. by rewrite step_iter in Hc.
Qed.
End Trial.

(** ** The loop over trials *)

Section Trials.
Context {F : Type} {AF : Arith F} {G : Type}.
Variable norm_rand : G -> F * G.
Variable c : config F.
Implicit Type st : locals F G.

Lemma trials_S k st :
  trials norm_rand c (S k) st =
  match trials norm_rand c k st with
  | Some st1 => trial norm_rand c k st1
  | None => None
  end.
Proof. reflexivity. Qed.

Lemma trials_total k st : exists st', trials norm_rand c k st = Some st'.
Proof.
  induction k as [|k [st1 IH]]; [by eexists|].
  rewrite trials_S, IH. apply trial_total.
Qed.

(** A trial writes the cells [i] of the two buffers and no other. *)
Lemma trial_buffers i st st' :
  trial norm_rand c i st = Some st' ->
  (length (resp st') = length (resp st) /\ length (rt st') = length (rt st)) /\
  forall j, j <> i -> resp st' !! j = resp st !! j /\ rt st' !! j = rt st !! j.
Proof.
  intros H. apply trial_exit in H as (pre & Hp & Hc & _ & ->).
  destruct (exit_facts norm_rand c i st pre (pass_head _ _ _ _ _ Hp) Hc)
    as (_ & _ & Ht & Hr).
  unfold write_rt. simpl. rewrite length_insert, Ht.
  assert (Hr' : exists v, resp (step norm_rand c i pre) = <[i := v]> (resp st)).
  { destruct (last_crossing c _ _); [destruct Hr as [_ ->] | destruct Hr as (_ & _ & ->)];
      by eexists. }
  destruct Hr' as [v ->]. rewrite length_insert. split; [done|].
  intros j Hj. by rewrite !list_lookup_insert_ne.
Qed.

Lemma trials_length k st st' :
  trials norm_rand c k st = Some st' ->
  length (resp st') = length (resp st) /\ length (rt st') = length (rt st).
Proof.
  revert st'. induction k as [|k IH]; intros st' H.
  - by injection H as <-.
  - rewrite trials_S in H.
    destruct (trials norm_rand c k st) as [st1|]; [|done].
    destruct (IH st1 eq_refl) as [<- <-]. by apply trial_buffers in H as [H _].
Qed.

(** The cells [i] of the buffers at the end are the ones trial [i] left. *)
Lemma trials_lookup k st st' i :
  trials norm_rand c k st = Some st' -> (i < k)%nat ->
  exists sti sti',
    trials norm_rand c i st = Some sti /\ trial norm_rand c i sti = Some sti' /\
    resp st' !! i = resp sti' !! i /\ rt st' !! i = rt sti' !! i.
Proof.
  revert st'. induction k as [|k IH]; intros st' H Hi; [lia|].
  rewrite trials_S in H.
  destruct (trials norm_rand c k st) as [st1|] eqn:E; [|done].
  destruct (decide (i = k)) as [->|Hne].
  - by exists st1, st'.
  - destruct (IH st1 eq_refl) as (sti & sti' & H1 & H2 & H3 & H4); [lia|].
    exists sti, sti'. split_and!; try done.
    + apply trial_buffers in H as [_ H]. destruct (H i Hne) as [-> _]. done.
    + apply trial_buffers in H as [_ H]. destruct (H i Hne) as [_ ->]. done.
Qed.


(** The batch returns. *)
Lemma simulateLCA_total resp0 rt0 g :
  exists out, simulateLCA norm_rand c resp0 rt0 g = Some out.
Proof.
  unfold simulateLCA.
  destruct (trials_total (Z.to_nat (nTrials c)) (entry_state resp0 rt0 g)) as [st' ->].
  by eexists.
Qed.

(** What the batch reports for trial [i], from the last pass of its loop. *)
Lemma batch_trial resp0 rt0 g resp' rt' g' i :
  simulateLCA norm_rand c resp0 rt0 g = Some (resp', rt', g') ->
  (i < Z.to_nat (nTrials c))%nat ->
  (i < length resp0)%nat -> (i < length rt0)%nat ->
  exists sti pre,
    loop_head c i sti pre /\ continue c (step norm_rand c i pre) = false /\
    final_pass norm_rand c resp0 rt0 g i pre /\
    length (resp sti) = length resp0 /\
    resp' !! i = resp (step norm_rand c i pre) !! i /\
    rt' !! i = Some (of_int (iter (step norm_rand c i pre)) * dt c - dt c / of_int 2)%A.
Proof.
  unfold simulateLCA. intros H Hi Hr Ht.
  destruct (trials _ _ _ _) as [st'|] eqn:E; [|done]. injection H as <- <- <-.
  destruct (trials_lookup _ _ _ i E Hi) as (sti & sti' & H1 & H2 & -> & ->).
  destruct (trials_length _ _ _ H1) as [Hl1 Hl2]. simpl in Hl1, Hl2.
  apply trial_exit in H2 as (pre & Hp & Hc & Hd & ->).
  pose proof (pass_head _ _ _ _ _ Hp) as Hh.
  exists sti, pre. split_and!; try done.
  - by exists sti.
  - unfold write_rt. simpl. apply list_lookup_insert_eq.
    rewrite step_rt. destruct Hh as [_ _ _ _ -> _]. lia.
Qed.
End Trials.

(** ** What the batch reports *)

Section Report.
Context {F : Type} {AF : Arith F} {G : Type}.
Variable norm_rand : G -> F * G.
Variable c : config F.
Implicit Type st : locals F G.

Abbreviation n := (n_acc c).
Abbreviation trials_n := (Z.to_nat (nTrials c)).


(** The batch returns, and for each trial the two cells it reports are
    those of the pass [step i pre] that ended the loop of the trial. *)
Lemma batch_report resp0 rt0 g :
  (trials_n <= length resp0)%nat -> (trials_n <= length rt0)%nat ->
  exists resp' rt' g',
    simulateLCA norm_rand c resp0 rt0 g = Some (resp', rt', g') /\
    forall i, (i < trials_n)%nat ->
      exists sti pre,
        let last := step norm_rand c i pre in
        loop_head c i sti pre /\ continue c last = false /\
        final_pass norm_rand c resp0 rt0 g i pre /\
        rt' !! i = Some (midpoint c (iter last)) /\
        1 <= iter last /\ (iter last = 1 \/ iter last <= maxiter c) /\
        match last_crossing c (x (integrate norm_rand c pre)) n with
        | Some z => resp' !! i = Some (Z.of_nat z + 1)
        | None => maxiter c <= iter last /\ resp' !! i = Some (-1)
        end.
Proof.
  intros Hr Ht.
  destruct (simulateLCA_total norm_rand c resp0 rt0 g) as [[[resp' rt'] g'] Hrun].
  exists resp', rt', g'. split; [done|]. intros i Hi.
  destruct (batch_trial norm_rand c _ _ _ _ _ _ i Hrun Hi)
    as (sti & pre & Hh & Hc & Hex & Hl & Hresp & Hrt); [lia | lia |].
  exists sti, pre. cbv zeta.
  destruct (exit_facts norm_rand c i sti pre Hh Hc) as (H1 & H2 & _ & H3).
  split_and!; try done.
  rewrite Hresp.
  destruct (last_crossing c _ n).
  - destruct H3 as [_ ->]. apply list_lookup_insert_eq. lia.
  - destruct H3 as (_ & H4 & ->). split; [done|]. apply list_lookup_insert_eq. lia.
Qed.
End Report.

(** ** Facts of double precision *)

(** The operations of [binary64] are specified by Rocq's [FloatAxioms] on the
    image [Prim2SF] of a float: zero, infinity, NaN or a finite number. *)
Section Binary64.
Local Open Scope float_scope.

Lemma Prim2SF_nan : Prim2SF nan = S754_nan.
Proof. reflexivity. Qed.

Lemma Prim2SF_zero : Prim2SF 0 = S754_zero false.
Proof. reflexivity. Qed.

Lemma add_nan_l y : nan + y = nan.
Proof. apply Prim2SF_inj. rewrite add_spec, Prim2SF_nan. reflexivity. Qed.

Lemma sub_nan_l y : nan - y = nan.
Proof. apply Prim2SF_inj. rewrite sub_spec, Prim2SF_nan. reflexivity. Qed.

(** A comparison with NaN is false. *)
Lemma fge_nan (z : float) : fge nan z = false.
Proof.
  simpl. rewrite leb_spec, Prim2SF_nan. unfold SFleb.
  by destruct (Prim2SF z).
Qed.

Lemma flt_nan (z : float) : flt nan z = false.
Proof. simpl. rewrite ltb_spec, Prim2SF_nan. reflexivity. Qed.

(** A value that is not below zero is at least zero, or it is NaN. *)
Lemma not_below_zero (v : float) :
  flt v (of_int 0) = false -> v = nan \/ fge v (of_int 0) = true.
Proof.
  change (flt v (of_int 0)) with (v <? 0).
  change (fge v (of_int 0)) with (0 <=? v).
  rewrite ltb_spec, leb_spec, Prim2SF_zero.
  unfold SFltb, SFleb. intros H.
  destruct (Prim2SF v) as [sg|sg| |sg m e] eqn:E.
  - by right.
  - right. by destruct sg.
  - left. apply Prim2SF_inj. by rewrite E.
  - right. by destruct sg.
Qed.
End Binary64.

(** ** Properties of a pass, a trial and the batch *)

Section Properties.
Context {F : Type} {AF : Arith F} {G : Type}.
Variable norm_rand : G -> F * G.
Variable c : config F.
Implicit Type st : locals F G.

Abbreviation n := (n_acc c).
Abbreviation trials_n := (Z.to_nat (nTrials c)).

Lemma sum_upto_ext k (d1 d2 : list F) :
  (forall z, (z < k)%nat -> d1 !!! z = d2 !!! z) -> sum_upto k d1 = sum_upto k d2.
Proof.
  induction k as [|k IH]; intros H; simpl; [done|].
  rewrite IH, (H k) by auto with lia. done.
Qed.

Lemma contribution_lookup (xs : list F) z :
  (z < length xs)%nat -> contribution c xs !!! z = (xs !!! z * dt c * beta c)%A.
Proof.
  intros Hz. unfold contribution.
  by apply (list_lookup_total_fmap (fun v => v * dt c * beta c)%A).
Qed.

(** C2.  In every pass of every trial, the new value of each accumulator [z]
    is [x[z] + dt*I[z] - kappa*x[z]*dt - sum + contribution[z] + rhs*N],
    where [contribution] and [sum] are formed from the values all
    accumulators had before the pass: the update of lines 86-88 reads no
    value that the pass has already updated. *)
Theorem update_uses_snapshot i st0 st z :
  pass_of norm_rand c i st0 st -> (z < n)%nat ->
  x (integrate norm_rand c st) !!! z
  = lca_update c (x st) z (draw norm_rand z (rng st)).
Proof.
  intros Hp Hz. destruct (pass_head _ _ _ _ _ Hp) as [Hx Hd _ _ _ _].
  rewrite integrate_x by done.
  unfold lca_update, total_inhibition.
  rewrite contribution_lookup by lia.
  rewrite (sum_upto_ext n (dummy (scale_dummy c st)) (contribution c (x st))); [done|].
  intros z' Hz'. rewrite contribution_lookup by lia.
  by apply scale_dummy_spec.
Qed.
End Properties.

(** An instance: the first pass of the second trial of [demo], second
    accumulator. *)
Lemma update_uses_snapshot_witness :
  let st0 := entry_state [0; 0; 0] [0; 0; 0]%float 0%nat in
  x (integrate counter_rand demo (trial_start demo 1 st0)) !!! 1%nat
  = lca_update demo (x (trial_start demo 1 st0)) 1
      (draw counter_rand 1 (rng (trial_start demo 1 st0))).
Proof.
  intros st0.
  apply (update_uses_snapshot counter_rand demo 1 st0 (trial_start demo 1 st0) 1).
  - apply pass_first.
  - vm_compute. lia.
Defined.

Section Reported.
Context {F : Type} {AF : Arith F} {G : Type}.
Variable norm_rand : G -> F * G.
Variable c : config F.
Implicit Type st : locals F G.

Abbreviation n := (n_acc c).
Abbreviation trials_n := (Z.to_nat (nTrials c)).

(** C3.  The batch returns, and for every trial: when in the last pass of
    the trial accumulator [z] has reached the threshold and no accumulator
    of a higher index has, the response reported is [z + 1], however many
    accumulators of lower index reached it in the same pass. *)
Theorem tie_break_highest_index resp0 rt0 g :
  (trials_n <= length resp0)%nat -> (trials_n <= length rt0)%nat ->
  exists resp' rt' g',
    simulateLCA norm_rand c resp0 rt0 g = Some (resp', rt', g') /\
    forall i, (i < trials_n)%nat ->
      exists pre,
        final_pass norm_rand c resp0 rt0 g i pre /\
        forall z, (z < n)%nat ->
          fge (x (integrate norm_rand c pre) !!! z) (Z_ c) = true ->
          (forall z', (z < z')%nat -> (z' < n)%nat ->
             fge (x (integrate norm_rand c pre) !!! z') (Z_ c) = false) ->
          resp' !! i = Some (Z.of_nat z + 1).
Proof.
  intros Hr Ht.
  destruct (batch_report norm_rand c resp0 rt0 g Hr Ht) as (resp' & rt' & g' & Hrun & H).
  exists resp', rt', g'. split; [done|]. intros i Hi.
  destruct (H i Hi) as (sti & pre & _ & _ & Hex & _ & _ & _ & Hw).
  exists pre. split; [done|]. intros z Hz Hc Hn.
  by rewrite (last_crossing_highest c _ _ z Hz Hc Hn) in Hw.
Qed.

(** C4.  The batch returns, and for every trial the reaction time reported
    is [iter*dt - dt/2] for the value [iter] of the counter with which the
    loop of the trial ended, whether or not an accumulator reached the
    threshold; for a trial reported as no response, and [maxiter >= 1], that
    counter is [maxiter], so the time is [maxiter*dt - dt/2]. *)
Theorem reaction_time_midpoint resp0 rt0 g :
  (trials_n <= length resp0)%nat -> (trials_n <= length rt0)%nat ->
  exists resp' rt' g',
    simulateLCA norm_rand c resp0 rt0 g = Some (resp', rt', g') /\
    forall i, (i < trials_n)%nat ->
      exists pre,
        let last := step norm_rand c i pre in
        final_pass norm_rand c resp0 rt0 g i pre /\
        rt' !! i = Some (of_int (iter last) * dt c - dt c / of_int 2)%A /\
        (1 <= maxiter c -> resp' !! i = Some (-1) ->
         iter last = maxiter c /\
         rt' !! i = Some (of_int (maxiter c) * dt c - dt c / of_int 2)%A).
Proof.
  intros Hr Ht.
  destruct (batch_report norm_rand c resp0 rt0 g Hr Ht) as (resp' & rt' & g' & Hrun & H).
  exists resp', rt', g'. split; [done|]. intros i Hi.
  destruct (H i Hi) as (sti & pre & _ & _ & Hex & Hrt & H1 & H2 & Hw).
  exists pre. cbv zeta in *. split_and!; try done.
  intros Hm Hno.
  assert (Hit : iter (step norm_rand c i pre) = maxiter c).
  { destruct (last_crossing c _ n) as [z|].
    - rewrite Hw in Hno. injection Hno. lia.
    - lia. }
  split; [done|]. by rewrite <- Hit.
Qed.

(** C1, as the source has it.  The batch returns, and for every trial, given
    [maxiter >= 1]: a response of -1 comes with the reaction time
    [maxiter*dt - dt/2]; a response other than -1 is the index, counted from
    1, of an accumulator that reached the threshold in the last pass of the
    trial, and that pass was entered with a counter below [maxiter]. *)
Theorem sentinel_implies_timeout resp0 rt0 g :
  1 <= maxiter c ->
  (trials_n <= length resp0)%nat -> (trials_n <= length rt0)%nat ->
  exists resp' rt' g',
    simulateLCA norm_rand c resp0 rt0 g = Some (resp', rt', g') /\
    forall i, (i < trials_n)%nat ->
      (resp' !! i = Some (-1) ->
       rt' !! i = Some (of_int (maxiter c) * dt c - dt c / of_int 2)%A) /\
      (resp' !! i <> Some (-1) ->
       exists pre z,
         final_pass norm_rand c resp0 rt0 g i pre /\
         iter pre < maxiter c /\
         (z < n)%nat /\
         fge (x (integrate norm_rand c pre) !!! z) (Z_ c) = true /\
         resp' !! i = Some (Z.of_nat z + 1)).
Proof.
  intros Hm Hr Ht.
  destruct (batch_report norm_rand c resp0 rt0 g Hr Ht) as (resp' & rt' & g' & Hrun & H).
  exists resp', rt', g'. split; [done|]. intros i Hi.
  destruct (H i Hi) as (sti & pre & Hh & _ & Hex & Hrt & H1 & H2 & Hw).
  cbv zeta in *. rewrite step_iter in *.
  destruct (last_crossing c _ n) as [z|] eqn:E.
  - split.
    + intros Hno. rewrite Hw in Hno. injection Hno. lia.
    + intros _. exists pre, z.
      apply last_crossing_Some in E as (Hz & Hc & _).
      destruct Hh as [_ _ _ _ _ Hit].
      split_and!; try done. lia.
  - destruct Hw as [Hge Hno]. split; [|done].
    intros _. rewrite Hrt. unfold midpoint.
    by replace (iter pre + 1) with (maxiter c) by lia.
Qed.

End Reported.

(** ** Rounding in double precision *)

(** The operations on doubles are specified on [Prim2SF] by the functions of
    [SpecFloat], which compute the exact result as an integer mantissa and an
    exponent and round it with [binary_round_aux].  What is needed of the
    rounding here is that it is monotone: it keeps an exact result at or
    above every double that is below it. *)
Section Rounding.
Local Open Scope R_scope.













End Rounding.

Section RoundingSteps.













End RoundingSteps.

Section Operations.
















End Operations.

Section AtLeastOnePass.
Context {G : Type}.
Variable norm_rand : G -> float * G.
Variable c : config float.

End AtLeastOnePass.

(** ** The properties on concrete runs in double precision *)

(** An instance: the run of [demo] from the generator state 0. *)
Lemma tie_break_highest_index_witness :
  exists resp' rt' g',
    simulateLCA counter_rand demo [0; 0; 0] [0; 0; 0]%float 0%nat = Some (resp', rt', g') /\
    forall i, (i < Z.to_nat (nTrials demo))%nat ->
      exists pre,
        final_pass counter_rand demo [0; 0; 0] [0; 0; 0]%float 0%nat i pre /\
        forall z, (z < n_acc demo)%nat ->
          fge (x (integrate counter_rand demo pre) !!! z) (Z_ demo) = true ->
          (forall z', (z < z')%nat -> (z' < n_acc demo)%nat ->
             fge (x (integrate counter_rand demo pre) !!! z') (Z_ demo) = false) ->
          resp' !! i = Some (Z.of_nat z + 1).
Proof.
  apply (tie_break_highest_index counter_rand demo [0; 0; 0] [0; 0; 0]%float 0%nat);
    vm_compute; lia.
Defined.

(** The run of [tie]: both accumulators reach the threshold in the first
    pass, and the response is 2. *)
Example tie_reports_second :
  simulateLCA counter_rand tie [0] [0]%float 0%nat = Some ([2], [0.5]%float, 2%nat).
Proof. vm_compute. reflexivity. Qed.

(** An instance: the run of [demo] from the generator state 0. *)
Lemma reaction_time_midpoint_witness :
  exists resp' rt' g',
    simulateLCA counter_rand demo [0; 0; 0] [0; 0; 0]%float 0%nat = Some (resp', rt', g') /\
    forall i, (i < Z.to_nat (nTrials demo))%nat ->
      exists pre,
        let last := step counter_rand demo i pre in
        final_pass counter_rand demo [0; 0; 0] [0; 0; 0]%float 0%nat i pre /\
        rt' !! i = Some (of_int (iter last) * dt demo - dt demo / of_int 2)%A /\
        (1 <= maxiter demo -> resp' !! i = Some (-1) ->
         iter last = maxiter demo /\
         rt' !! i = Some (of_int (maxiter demo) * dt demo - dt demo / of_int 2)%A).
Proof.
  apply (reaction_time_midpoint counter_rand demo [0; 0; 0] [0; 0; 0]%float 0%nat);
    vm_compute; lia.
Defined.

(** An instance: the run of [demo] from the generator state 0. *)
Lemma sentinel_implies_timeout_witness :
  exists resp' rt' g',
    simulateLCA counter_rand demo [0; 0; 0] [0; 0; 0]%float 0%nat = Some (resp', rt', g') /\
    forall i, (i < Z.to_nat (nTrials demo))%nat ->
      (resp' !! i = Some (-1) ->
       rt' !! i = Some (of_int (maxiter demo) * dt demo - dt demo / of_int 2)%A) /\
      (resp' !! i <> Some (-1) ->
       exists pre z,
         final_pass counter_rand demo [0; 0; 0] [0; 0; 0]%float 0%nat i pre /\
         iter pre < maxiter demo /\
         (z < n_acc demo)%nat /\
         fge (x (integrate counter_rand demo pre) !!! z) (Z_ demo) = true /\
         resp' !! i = Some (Z.of_nat z + 1)).
Proof.
  apply (sentinel_implies_timeout counter_rand demo [0; 0; 0] [0; 0; 0]%float 0%nat);
    vm_compute; try lia. discriminate.
Defined.

(** A response can come with the reaction time of a time-out.  The run of
    [last_pass] reports the response 1 together with the reaction time [maxiter*dt - dt/2 = 0.5] of a trial
    that ran out of passes: the accumulator reaches the threshold in pass
    number [maxiter]. *)
Lemma sentinel_iff_counterexample :
  exists resp' rt' g',
    simulateLCA counter_rand last_pass [0] [0]%float 0%nat = Some (resp', rt', g') /\
    ~ (resp' !! 0%nat = Some (-1) <->
       rt' !! 0%nat
       = Some (of_int (maxiter last_pass) * dt last_pass - dt last_pass / of_int 2)%A).
Proof.
  exists [1], [0.5]%float, 1%nat. split; [vm_compute; reflexivity|].
  intros [_ H]. discriminate H. vm_compute. reflexivity.
Qed.



(** The half of that step size is not exact. *)
Example tiny_dt_half_inexact : half_exact (dt tiny_dt) = false.
Proof. vm_compute. reflexivity. Qed.

(** ** The factor of the noise *)

(** C7, in exact arithmetic.  For [s >= 0] and [dt > 0] the factor of line
    47, [sqrt (dt*s*s)], is [sqrt dt * s] over the real numbers. *)
Theorem noise_factor_exact (c : config R) :
  (0 <= s c)%R -> (0 < dt c)%R -> rhs c = (R_sqrt.sqrt (dt c) * s c)%R.
Proof.
  intros Hs Hdt. unfold rhs. simpl.
  rewrite Rmult_assoc, sqrt_mult by nra.
  by rewrite sqrt_square.
Qed.

(** An instance: [s = 3] and [dt = 4]. *)
Lemma noise_factor_exact_witness :
  let c := Config 1 [1%R] 0%R 0%R 1%R 3%R 4%R 1 1 0 [0%R] in
  rhs c = (R_sqrt.sqrt (dt c) * s c)%R.
Proof.
  intros c. apply (noise_factor_exact c); simpl; lra.
Defined.

(** The factor of the noise in double precision.  For [small_noise], where
    [s >= 0] and [dt > 0], the factor of line 47 is 0, and [sqrt dt * s] is
    [2^-600]. *)
Lemma noise_factor_counterexample :
  fge (s small_noise) (of_int 0) = true /\
  flt (of_int 0) (dt small_noise) = true /\
  rhs small_noise = 0%float /\
  (fsqrt (dt small_noise) * s small_noise)%A = 0x1p-600%float /\
  PrimFloat.eqb (rhs small_noise) (fsqrt (dt small_noise) * s small_noise)%A = false.
Proof. vm_compute. done. Qed.

(** They differ by rounding on ordinary values too: [dt = 2], [s = 3]. *)
Example noise_factor_rounding :
  PrimFloat.eqb (PrimFloat.sqrt (2 * 3 * 3)) (PrimFloat.sqrt 2 * 3)%float = false.
Proof. vm_compute. reflexivity. Qed.

(** ** The clamp *)

Section Clamp.
Context {G : Type}.
Variable norm_rand : G -> float * G.
Variable c : config float.

(** C8, as the source has it.  With [nonLinear = 1], whatever [s] is, after
    every pass of every trial no accumulator is below 0: each is at least 0,
    or is NaN. *)
Theorem clamp_not_below_zero i st0 st z :
  nonLinear c = 1 ->
  pass_of norm_rand c i st0 st -> (z < n_acc c)%nat ->
  let v := x (step norm_rand c i st) !!! z in
  flt v (of_int 0) = false /\ (v = nan \/ fge v (of_int 0) = true).
Proof.
  intros Hnl Hp Hz v.
  destruct (pass_head _ _ _ _ _ Hp) as [Hx Hd _ _ _ _].
  assert (Hv : flt v (of_int 0) = false).
  { unfold v. rewrite step_x by done. unfold clamp. rewrite Hnl. simpl Z.eqb. cbv iota.
    destruct (flt (x (integrate norm_rand c st) !!! z) (of_int 0)) eqn:E;
      [reflexivity | exact E]. }
  split; [exact Hv | by apply not_below_zero].
Qed.
End Clamp.

(** An instance: the first pass of the first trial of [demo], second
    accumulator. *)
Lemma clamp_not_below_zero_witness :
  let st0 := entry_state [0; 0; 0] [0; 0; 0]%float 0%nat in
  let v := x (step counter_rand demo 0 (trial_start demo 0 st0)) !!! 1%nat in
  flt v (of_int 0) = false /\ (v = nan \/ fge v (of_int 0) = true).
Proof.
  intros st0.
  apply (clamp_not_below_zero counter_rand demo 0 st0 (trial_start demo 0 st0) 1).
  - reflexivity.
  - apply pass_first.
  - vm_compute. lia.
Defined.

(** An accumulator that is not at least 0 after the clamp.  In the first pass
    of [overflow], with the clamp on
    and [s = 0], the accumulator becomes NaN, the clamp leaves it, and
    [NaN >= 0] is false. *)
Lemma clamp_nonnegative_counterexample :
  let st0 := entry_state [0] [0]%float 0%nat in
  let v := x (step counter_rand overflow 0 (trial_start overflow 0 st0)) !!! 0%nat in
  nonLinear overflow = 1 /\ PrimFloat.eqb (s overflow) 0 = true /\
  v = nan /\ fge v (of_int 0) = false.
Proof. vm_compute. done. Qed.

(** ** Accumulators that are NaN *)

Section NaN.
Context {G : Type}.
Variable norm_rand : G -> float * G.
Variable c : config float.
Implicit Type st : locals float G.

Abbreviation n := (n_acc c).

(** The loop of a trial, taken up again at one of its passes, ends in the
    same state. *)
Lemma do_while_resume i st0 st fuel last :
  pass_of norm_rand c i st0 st ->
  do_while norm_rand c fuel i (trial_start c i st0) = Some last ->
  exists fuel', do_while norm_rand c fuel' i st = Some last.
Proof.
  intros Hp Hrun. induction Hp as [|st Hp IH Hc]; [by exists fuel|].
  destruct IH as [[|f] Hf]; [done|]. simpl in Hf.
  unfold continue in Hc. rewrite Hc in Hf. by exists f.
Qed.

(** An accumulator that is NaN before the update is NaN after it. *)
Lemma nan_update st z :
  length (x st) = n -> length (dummy st) = n -> (z < n)%nat ->
  x st !!! z = nan -> x (integrate norm_rand c st) !!! z = nan.
Proof.
  intros Hx Hd Hz Hnan. rewrite integrate_x by done. rewrite Hnan.
  cbn [fadd fsub binary64].
  by rewrite !add_nan_l, !sub_nan_l, !add_nan_l.
Qed.

(** A pass whose update leaves only NaN finds no winner and leaves only
    NaN. *)
Lemma nan_pass i st :
  length (x st) = n -> length (dummy st) = n ->
  (forall z, (z < n)%nat -> x (integrate norm_rand c st) !!! z = nan) ->
  winner (step norm_rand c i st) = winner st /\
  resp (step norm_rand c i st) = resp st /\
  forall z, (z < n)%nat -> x (step norm_rand c i st) !!! z = nan.
Proof.
  intros Hx Hd Hnan.
  pose proof (step_winner norm_rand c i st Hx Hd) as Hw.
  assert (Hno : last_crossing c (x (integrate norm_rand c st)) n = None).
  { apply last_crossing_None. intros z Hz. rewrite Hnan by done. apply fge_nan. }
  rewrite Hno in Hw. destruct Hw as [Hw Hr]. split_and!; try done.
  intros z Hz. rewrite step_x, Hnan by done.
  unfold clamp. rewrite flt_nan. by destruct (nonLinear c =? 1).
Qed.

Lemma nan_loop i st0 fuel st last :
  loop_head c i st0 st ->
  (forall z, (z < n)%nat -> x (integrate norm_rand c st) !!! z = nan) ->
  do_while norm_rand c fuel i st = Some last ->
  winner last = false.
Proof.
  revert st. induction fuel as [|fuel IH]; intros st Hh Hnan; [done|]. simpl.
  destruct (nan_pass i st (head_x _ _ _ _ Hh) (head_dummy _ _ _ _ Hh) Hnan)
    as (Hw & Hr & Hx').
  fold (continue c (step norm_rand c i st)).
  destruct (continue c (step norm_rand c i st)) eqn:E.
  - pose proof (step_head norm_rand c i st0 st Hh E) as Hh'.
    apply IH; [done|].
    intros z Hz.
    apply nan_update;
      [apply (head_x _ _ _ _ Hh') | apply (head_dummy _ _ _ _ Hh') | done | by apply Hx'].
  - intros [= <-]. rewrite Hw. apply (head_winner _ _ _ _ Hh).
Qed.

(** C9.  A comparison of NaN with the threshold is false; and a trial in
    which, in some pass, the update leaves every accumulator NaN returns,
    with the response -1 and, for [maxiter >= 1], after [maxiter] passes:
    its loop ends with the counter at [maxiter] and no winner, and the
    reaction time is [maxiter*dt - dt/2]. *)
Theorem nan_is_no_response i st0 pre :
  1 <= maxiter c ->
  (i < length (resp st0))%nat -> (i < length (rt st0))%nat ->
  pass_of norm_rand c i st0 pre ->
  (forall z, (z < n)%nat -> x (integrate norm_rand c pre) !!! z = nan) ->
  (forall t : float, fge nan t = false) /\
  exists last,
    trial norm_rand c i st0 = Some (write_rt c i last) /\
    winner last = false /\ iter last = maxiter c /\
    resp (write_rt c i last) !! i = Some (-1) /\
    rt (write_rt c i last) !! i = Some (midpoint c (maxiter c)).
Proof.
  intros Hm Hr Ht Hp Hnan. split; [apply fge_nan|].
  destruct (trial_total norm_rand c i st0) as [st' Hrun].
  destruct (trial_exit norm_rand c i st0 st' Hrun) as (pre' & Hp' & Hc & Hdo & ->).
  pose proof (pass_head _ _ _ _ _ Hp') as Hh.
  exists (step norm_rand c i pre'). split; [done|].
  destruct (do_while_resume i st0 pre _ _ Hp Hdo) as [fuel' Hres].
  pose proof (nan_loop i st0 fuel' pre _ (pass_head _ _ _ _ _ Hp) Hnan Hres) as Hw.
  destruct (exit_facts norm_rand c i st0 pre' Hh Hc) as (H1 & H2 & Hrt & Hlc).
  destruct (last_crossing c _ _); [destruct Hlc; congruence|].
  destruct Hlc as (_ & Hge & Hresp).
  assert (Hit : iter (step norm_rand c i pre') = maxiter c) by lia.
  split_and!; try done.
  - unfold write_rt. simpl. rewrite Hresp. by apply list_lookup_insert_eq.
  - unfold write_rt. simpl. rewrite Hit. apply list_lookup_insert_eq.
    by rewrite Hrt.
Qed.
End NaN.

(** An instance: the trial of [overflow], whose first pass leaves NaN. *)
Lemma nan_is_no_response_witness :
  let st0 := entry_state [0] [0]%float 0%nat in
  (forall t : float, fge nan t = false) /\
  exists last,
    trial counter_rand overflow 0 st0 = Some (write_rt overflow 0 last) /\
    winner last = false /\ iter last = maxiter overflow /\
    resp (write_rt overflow 0 last) !! 0%nat = Some (-1) /\
    rt (write_rt overflow 0 last) !! 0%nat = Some (midpoint overflow (maxiter overflow)).
Proof.
  intros st0.
  apply (nan_is_no_response counter_rand overflow 0 st0 (trial_start overflow 0 st0)).
  - vm_compute. discriminate.
  - simpl. lia.
  - simpl. lia.
  - apply pass_first.
  - intros z Hz. assert (z = 0%nat) as -> by (vm_compute in Hz; lia).
    vm_compute. reflexivity.
Defined.

(** The run of [overflow]: no response after the three passes allowed. *)
Example overflow_run :
  simulateLCA counter_rand overflow [0] [0]%float 0%nat
  = Some ([-1], [2.5]%float, 3%nat).
Proof. vm_compute. reflexivity. Qed.

(** ** Two runs in step *)

Section Simulation.
Context {F : Type} {AF : Arith F} {G1 G2 : Type}.
Variable nr1 : G1 -> F * G1.
Variable nr2 : G2 -> F * G2.
Variables c1 c2 : config F.
Variable E : F -> F -> Prop.
Variable RG : G1 -> G2 -> Prop.

Abbreviation n := (n_acc c1).

Hypothesis same_nAcc : nAcc c2 = nAcc c1.
Hypothesis same_Z : Z_ c2 = Z_ c1.
Hypothesis same_maxiter : maxiter c2 = maxiter c1.
Hypothesis same_nonLinear : nonLinear c2 = nonLinear c1.
Hypothesis same_dt : dt c2 = dt c1.
Hypothesis same_x0 : x0 c2 = x0 c1.
Hypothesis same_nTrials : nTrials c2 = nTrials c1.
Hypothesis E_refl : forall a, E a a.
Hypothesis E_fge : forall a b, E a b -> fge a (Z_ c1) = fge b (Z_ c1).
Hypothesis E_flt : forall a b, E a b -> flt a (of_int 0) = flt b (of_int 0).
Hypothesis E_integrate : forall st1 st2,
  related E RG n st1 st2 ->
  (forall z, (z < n)%nat ->
     E (x (integrate nr1 c1 st1) !!! z) (x (integrate nr2 c2 st2) !!! z)) /\
  RG (rng (integrate nr1 c1 st1)) (rng (integrate nr2 c2 st2)).

Lemma same_n : n_acc c2 = n.
Proof. unfold n_acc. by rewrite same_nAcc. Qed.

Lemma last_crossing_related (xs1 xs2 : list F) k :
  (forall z, (z < k)%nat -> E (xs1 !!! z) (xs2 !!! z)) ->
  last_crossing c2 xs2 k = last_crossing c1 xs1 k.
Proof.
  induction k as [|k IH]; intros H; simpl; [done|].
  rewrite same_Z, <- (E_fge (xs1 !!! k) (xs2 !!! k)) by auto with lia.
  rewrite IH by auto with lia. done.
Qed.

Lemma related_step i st1 st2 :
  related E RG n st1 st2 ->
  related E RG n (step nr1 c1 i st1) (step nr2 c2 i st2).
Proof.
  intros Hrel. pose proof (E_integrate st1 st2 Hrel) as [Hint Hrng].
  destruct Hrel as ([Hx1 Hd1] & [Hx2 Hd2] & HE & Hi & Hw & Hr & Ht & Hg).
  pose proof same_n as Hn.
  rewrite <- Hn in Hx2, Hd2.
  destruct (step_length nr1 c1 i st1 Hx1 Hd1) as [Hx1' Hd1'].
  destruct (step_length nr2 c2 i st2 Hx2 Hd2) as [Hx2' Hd2'].
  pose proof (step_winner nr1 c1 i st1 Hx1 Hd1) as Hw1.
  pose proof (step_winner nr2 c2 i st2 Hx2 Hd2) as Hw2.
  rewrite Hn in Hw2. rewrite (last_crossing_related _ _ n Hint) in Hw2.
  rewrite Hn in *.
  split_and!; try done.
  - intros z Hz. rewrite (step_x nr1 c1) by done.
    rewrite (step_x nr2 c2) by (rewrite ?Hn; done).
    unfold clamp. rewrite same_nonLinear.
    rewrite <- (E_flt _ _ (Hint z Hz)).
    destruct (nonLinear c1 =? 1); [|by apply Hint].
    destruct (flt _ _); [apply E_refl | by apply Hint].
  - rewrite !step_iter. by rewrite Hi.
  - destruct (last_crossing c1 _ n); destruct Hw1 as [-> _], Hw2 as [-> _]; done.
  - destruct (last_crossing c1 _ n); destruct Hw1 as [_ ->], Hw2 as [_ ->];
      by rewrite Hr.
  - rewrite !step_rt. done.
  - unfold step. rewrite (check_winner_frame c1), (check_winner_frame c2). done.
Qed.

Lemma related_do_while i fuel st1 st2 :
  related E RG n st1 st2 ->
  do_while nr1 c1 fuel i st1 = None /\ do_while nr2 c2 fuel i st2 = None \/
  both (related E RG n) (do_while nr1 c1 fuel i st1) (do_while nr2 c2 fuel i st2).
Proof.
  revert st1 st2. induction fuel as [|fuel IH]; intros st1 st2 Hrel; [by left|].
  simpl. pose proof (related_step i st1 st2 Hrel) as Hs.
  pose proof Hs as (_ & _ & _ & Hi & Hw & _).
  rewrite same_maxiter, <- Hi, <- Hw.
  destruct (_ && _); [by apply IH | by right].
Qed.

Lemma related_start i (st1 : locals F G1) (st2 : locals F G2) :
  same_report RG st1 st2 ->
  related E RG n (trial_start c1 i st1) (trial_start c2 i st2).
Proof.
  intros (Hr & Ht & Hg). unfold trial_start.
  destruct (init_arrays_spec c1
    (set_resp (<[i:=-1]> (resp st1)) (set_iter 0 (set_winner false st1)))) as (Hx1 & Hd1 & Hz1).
  destruct (init_arrays_spec c2
    (set_resp (<[i:=-1]> (resp st2)) (set_iter 0 (set_winner false st2)))) as (Hx2 & Hd2 & Hz2).
  rewrite same_n in *.
  split_and!; try done.
  - intros z Hz. rewrite Hz1, Hz2, same_x0 by done. apply E_refl.
  - by rewrite (init_arrays_frame c1), (init_arrays_frame c2).
  - by rewrite (init_arrays_frame c1), (init_arrays_frame c2).
  - rewrite (init_arrays_frame c1), (init_arrays_frame c2). simpl. by rewrite Hr.
  - by rewrite (init_arrays_frame c1), (init_arrays_frame c2).
  - by rewrite (init_arrays_frame c1), (init_arrays_frame c2).
Qed.

Lemma related_trial i (st1 : locals F G1) (st2 : locals F G2) :
  same_report RG st1 st2 ->
  both (same_report RG) (trial nr1 c1 i st1) (trial nr2 c2 i st2).
Proof.
  intros Hrel. unfold trial. rewrite same_maxiter.
  destruct (trial_total nr1 c1 i st1) as [r1 Hr1].
  unfold trial in Hr1.
  destruct (related_do_while i (S (Z.to_nat (maxiter c1))) _ _ (related_start i _ _ Hrel))
    as [[Hn1 _] | Hb].
  - by rewrite Hn1 in Hr1.
  - destruct (do_while nr1 _ _ _ _) as [a|]; [|done].
    destruct (do_while nr2 _ _ _ _) as [b|]; [|done].
    destruct Hb as (_ & _ & _ & Hi & _ & Hr & Ht & Hg).
    unfold write_rt. simpl. repeat split; try done.
    by rewrite Hi, Ht, same_dt.
Qed.

Lemma related_trials k (st1 : locals F G1) (st2 : locals F G2) :
  same_report RG st1 st2 ->
  both (same_report RG) (trials nr1 c1 k st1) (trials nr2 c2 k st2).
Proof.
  intros Hrel. induction k as [|k IH]; [done|].
  rewrite !trials_S.
  destruct (trials nr1 c1 k st1) as [a|]; [|done].
  destruct (trials nr2 c2 k st2) as [b|]; [|done].
  by apply related_trial.
Qed.

(** Two runs of the batch that stay related return the same buffers. *)
Lemma related_batch resp0 rt0 g1 g2 :
  RG g1 g2 ->
  both (same_output RG)
    (simulateLCA nr1 c1 resp0 rt0 g1) (simulateLCA nr2 c2 resp0 rt0 g2).
Proof.
  intros Hg. unfold simulateLCA. rewrite same_nTrials.
  pose proof (related_trials (Z.to_nat (nTrials c1))
    (entry_state resp0 rt0 g1) (entry_state resp0 rt0 g2)) as Hb.
  destruct (trials nr1 _ _ _) as [a|]; [|by apply Hb].
  destruct (trials nr2 _ _ _) as [b|]; [|by apply Hb].
  by apply Hb.
Qed.
End Simulation.

(** ** Zeros of either sign in double precision *)

Section SameValue.
Local Open Scope float_scope.

Lemma sf_same_refl A : sf_same A A.
Proof. by left. Qed.

Ltac sf_cases :=
  repeat match goal with
         | b : bool |- _ => destruct b
         end;
  simpl; first [by left | right; eauto].

Lemma sf_same_add A A' B B' :
  sf_same A A' -> sf_same B B' -> sf_same (SF64add A B) (SF64add A' B').
Proof.
  unfold SF64add.
  intros [->|(sa & sb & -> & ->)] [->|(ta & tb & -> & ->)]; [by left | | |].
  - destruct A' as [s|s| |s m e]; sf_cases.
  - destruct B' as [s|s| |s m e]; sf_cases.
  - sf_cases.
Qed.

Lemma sf_same_sub A A' B B' :
  sf_same A A' -> sf_same B B' -> sf_same (SF64sub A B) (SF64sub A' B').
Proof.
  unfold SF64sub.
  intros [->|(sa & sb & -> & ->)] [->|(ta & tb & -> & ->)]; [by left | | |].
  - destruct A' as [s|s| |s m e]; sf_cases.
  - destruct B' as [s|s| |s m e]; sf_cases.
  - sf_cases.
Qed.

Lemma sf_same_mul A A' B B' :
  sf_same A A' -> sf_same B B' -> sf_same (SF64mul A B) (SF64mul A' B').
Proof.
  unfold SF64mul.
  intros [->|(sa & sb & -> & ->)] [->|(ta & tb & -> & ->)]; [by left | | |].
  - destruct A' as [s|s| |s m e]; sf_cases.
  - destruct B' as [s|s| |s m e]; sf_cases.
  - sf_cases.
Qed.

Lemma sf_same_leb A B B' : sf_same B B' -> SFleb A B = SFleb A B'.
Proof.
  intros [->|(ta & tb & -> & ->)]; [done|].
  unfold SFleb. by destruct A as [s|s| |s m e].
Qed.

Lemma sf_same_ltb A A' B : sf_same A A' -> SFltb A B = SFltb A' B.
Proof.
  intros [->|(ta & tb & -> & ->)]; [done|].
  unfold SFltb. by destruct B as [s|s| |s m e].
Qed.

Lemma same_value_refl a : same_value a a.
Proof. apply sf_same_refl. Qed.

Lemma same_value_add a a' b b' :
  same_value a a' -> same_value b b' -> same_value (a + b) (a' + b').
Proof. unfold same_value. rewrite !add_spec. apply sf_same_add. Qed.

Lemma same_value_sub a a' b b' :
  same_value a a' -> same_value b b' -> same_value (a - b) (a' - b').
Proof. unfold same_value. rewrite !sub_spec. apply sf_same_sub. Qed.

Lemma same_value_mul a a' b b' :
  same_value a a' -> same_value b b' -> same_value (a * b) (a' * b').
Proof. unfold same_value. rewrite !mul_spec. apply sf_same_mul. Qed.

Lemma same_value_fge a a' t : same_value a a' -> fge a t = fge a' t.
Proof. intros H. simpl. rewrite !leb_spec. by apply sf_same_leb. Qed.

Lemma same_value_flt a a' t : same_value a a' -> flt a t = flt a' t.
Proof. intros H. simpl. rewrite !ltb_spec. by apply sf_same_ltb. Qed.

(** A finite double is a zero or a finite number. *)
Lemma is_finite_spec v :
  is_finite v = true ->
  match Prim2SF v with
  | S754_zero _ | S754_finite _ _ _ => True
  | _ => False
  end.
Proof.
  unfold is_finite, is_nan, is_infinity.
  rewrite !FloatAxioms.eqb_spec, abs_spec.
  change (Prim2SF infinity) with (S754_infinity false).
  destruct (Prim2SF v) as [sg|sg| |sg m e]; try done.
  by destruct sg.
Qed.

Lemma is_zero_spec v : is_zero v = true -> exists sa, Prim2SF v = S754_zero sa.
Proof.
  unfold is_zero. rewrite FloatAxioms.eqb_spec. change (Prim2SF zero) with (S754_zero false).
  destruct (Prim2SF v) as [sg|sg| |sg m e];
    [by exists sg | by destruct sg | done | by destruct sg].
Qed.

(** With [s] a zero, the factor of line 47 is a zero, or NaN when [dt] is
    infinite or NaN. *)
Lemma zero_noise_factor (c : config float) :
  is_zero (s c) = true -> sf_quiet (Prim2SF (rhs c)).
Proof.
  intros [sa Hs]%is_zero_spec. unfold rhs. cbn [fsqrt fmul binary64].
  rewrite sqrt_spec, !mul_spec, Hs. unfold SF64sqrt, SF64mul.
  destruct (Prim2SF (dt c)) as [sd|sd| |sd m e]; simpl;
    first [by left | right; by eexists].
Qed.

(** The noise term of two finite draws, when the factor is a zero or NaN. *)
Lemma quiet_noise (r v1 v2 : float) :
  sf_quiet (Prim2SF r) -> is_finite v1 = true -> is_finite v2 = true ->
  same_value (r * v1) (r * v2).
Proof.
  intros Hr H1%is_finite_spec H2%is_finite_spec.
  unfold same_value. rewrite !mul_spec. unfold SF64mul.
  destruct Hr as [-> | [sa ->]]; [by left|].
  destruct (Prim2SF v1) as [s1|s1| |s1 m1 e1]; try done;
    destruct (Prim2SF v2) as [s2|s2| |s2 m2 e2]; try done;
    right; simpl; eauto.
Qed.
End SameValue.

(** ** No noise: the generator does not matter *)

Section ZeroNoise.
Context {G : Type}.
Variable norm_rand : G -> float * G.
Variable c : config float.

Abbreviation n := (n_acc c).
Abbreviation any := (fun _ _ : G => True).

Hypothesis s_zero : is_zero (s c) = true.
Hypothesis finite_draws : forall g, is_finite (fst (norm_rand g)) = true.

Lemma sum_upto_same k (d1 d2 : list float) :
  (forall z, (z < k)%nat -> same_value (d1 !!! z) (d2 !!! z)) ->
  same_value (sum_upto k d1) (sum_upto k d2).
Proof.
  induction k as [|k IH]; intros H; simpl; [apply same_value_refl|].
  apply same_value_add; auto with lia.
Qed.

Lemma integrate_same (st1 st2 : locals float G) :
  related same_value any n st1 st2 ->
  (forall z, (z < n)%nat ->
     same_value (x (integrate norm_rand c st1) !!! z)
                (x (integrate norm_rand c st2) !!! z)) /\
  any (rng (integrate norm_rand c st1)) (rng (integrate norm_rand c st2)).
Proof.
  intros ([Hx1 Hd1] & [Hx2 Hd2] & HE & _). split; [|done].
  intros z Hz. rewrite !integrate_x by done.
  cbn [fadd fsub fmul binary64].
  apply same_value_add;
    [|apply quiet_noise; [by apply zero_noise_factor | apply finite_draws ..]].
  apply same_value_add; [apply same_value_sub; [apply same_value_sub|]|].
  - apply same_value_add; [by apply HE | apply same_value_refl].
  - do 2 (apply same_value_mul; try apply same_value_refl). by apply HE.
  - apply sum_upto_same. intros z' Hz'.
    destruct (scale_dummy_spec c st1 Hd1) as [_ ->]; [|done].
    destruct (scale_dummy_spec c st2 Hd2) as [_ ->]; [|done].
    do 2 (apply same_value_mul; try apply same_value_refl). by apply HE.
  - do 2 (apply same_value_mul; try apply same_value_refl). by apply HE.
Qed.

(** C6.  With [s] a zero and a generator whose draws are finite, two runs of
    the batch on the same configuration and buffers, from any two states of
    the generator, return the same responses and the same reaction times;
    and the accumulators of the two runs have the same values all along:
    they do when a trial starts, and a pass of the loop keeps them so. *)
Theorem zero_noise_deterministic resp0 rt0 (g1 g2 : G) :
  (exists resp' rt' g1' g2',
     simulateLCA norm_rand c resp0 rt0 g1 = Some (resp', rt', g1') /\
     simulateLCA norm_rand c resp0 rt0 g2 = Some (resp', rt', g2')) /\
  (forall i (st1 st2 : locals float G),
     resp st1 = resp st2 -> rt st1 = rt st2 ->
     related same_value any n (trial_start c i st1) (trial_start c i st2)) /\
  (forall i (st1 st2 : locals float G),
     related same_value any n st1 st2 ->
     related same_value any n (step norm_rand c i st1) (step norm_rand c i st2)).
Proof.
  assert (Hfge : forall a b, same_value a b -> fge a (Z_ c) = fge b (Z_ c))
    by (intros; by apply same_value_fge).
  assert (Hflt : forall a b, same_value a b -> flt a (of_int 0) = flt b (of_int 0))
    by (intros; by apply same_value_flt).
  split_and!.
  - pose proof (related_batch norm_rand norm_rand c c same_value any
      eq_refl eq_refl eq_refl eq_refl eq_refl eq_refl eq_refl
      same_value_refl Hfge Hflt integrate_same resp0 rt0 g1 g2 Logic.I) as Hb.
    destruct (simulateLCA norm_rand c resp0 rt0 g1) as [[[r1 t1] g1']|]; [|done].
    destruct (simulateLCA norm_rand c resp0 rt0 g2) as [[[r2 t2] g2']|]; [|done].
    destruct Hb as (Hr & Ht & _). simpl in Hr, Ht. subst.
    by exists r2, t2, g1', g2'.
  - intros i st1 st2 Hr Ht.
    by apply (related_start c c same_value any eq_refl eq_refl same_value_refl).
  - intros i st1 st2.
    by apply (related_step norm_rand norm_rand c c same_value any
      eq_refl eq_refl eq_refl same_value_refl Hfge Hflt integrate_same).
Qed.
End ZeroNoise.

Lemma counter_rand_finite g : is_finite (fst (counter_rand g)) = true.
Proof. unfold counter_rand. by destruct (Nat.even g). Qed.

(** An instance: [tie], where [s = 0], from the generator states 0 and 1. *)
Lemma zero_noise_deterministic_witness :
  (exists resp' rt' g1' g2',
     simulateLCA counter_rand tie [0] [0]%float 0%nat = Some (resp', rt', g1') /\
     simulateLCA counter_rand tie [0] [0]%float 1%nat = Some (resp', rt', g2')) /\
  (forall i (st1 st2 : locals float nat),
     resp st1 = resp st2 -> rt st1 = rt st2 ->
     related same_value (fun _ _ => True) (n_acc tie)
       (trial_start tie i st1) (trial_start tie i st2)) /\
  (forall i (st1 st2 : locals float nat),
     related same_value (fun _ _ => True) (n_acc tie) st1 st2 ->
     related same_value (fun _ _ => True) (n_acc tie)
       (step counter_rand tie i st1) (step counter_rand tie i st2)).
Proof.
  apply (zero_noise_deterministic counter_rand tie).
  - vm_compute. reflexivity.
  - apply counter_rand_finite.
Defined.

(** ** One accumulator *)

Section SingleAccumulator.
Context {G : Type}.
Variable norm_rand : G -> R * G.
Variable c : config R.
Hypothesis one : nAcc c = 1.

Lemma n_acc_one : n_acc c = 1%nat.
Proof. unfold n_acc. by rewrite one. Qed.

(** Over the real numbers the inhibition of a single accumulator cancels. *)
Lemma integrate_one (st : locals R G) :
  length (x st) = 1%nat -> length (dummy st) = 1%nat ->
  x (integrate norm_rand c st) !!! 0%nat
  = (x st !!! 0%nat + dt c * (I_ c !!! 0%nat - kappa c * x st !!! 0%nat)
     + rhs c * draw norm_rand 0 (rng st))%R.
Proof.
  intros Hx Hd. pose proof n_acc_one as Hn.
  rewrite integrate_x by (rewrite ?Hn; auto).
  pose proof (scale_dummy_spec c st) as Hs.
  rewrite Hn in *. destruct (Hs Hd) as [_ Hs']. simpl sum_upto.
  rewrite (Hs' 0%nat) by lia.
  simpl. ring.
Qed.

Lemma integrate_any_beta b (st1 st2 : locals R G) :
  related eq eq (n_acc c) st1 st2 ->
  (forall z, (z < n_acc c)%nat ->
     x (integrate norm_rand c st1) !!! z
     = x (integrate norm_rand (with_beta b c) st2) !!! z) /\
  rng (integrate norm_rand c st1) = rng (integrate norm_rand (with_beta b c) st2).
Proof.
  pose proof n_acc_one as Hn. rewrite Hn.
  intros ([Hx1 Hd1] & [Hx2 Hd2] & HE & _ & _ & _ & _ & Hg). split.
  - intros z Hz. assert (z = 0%nat) as -> by lia.
    rewrite integrate_one by done.
    assert (Hn' : n_acc (with_beta b c) = 1%nat) by exact Hn.
    rewrite (integrate_x norm_rand (with_beta b c)) by (rewrite ?Hn'; auto with lia).
    pose proof (scale_dummy_spec (with_beta b c) st2) as Hs.
    rewrite Hn' in *.
    destruct (Hs Hd2) as [_ Hs']. simpl sum_upto.
    rewrite (Hs' 0%nat) by lia.
    rewrite <- (HE 0%nat) by lia. rewrite <- Hg.
    change (rhs (with_beta b c)) with (rhs c). simpl. ring.
  - rewrite (integrate_rng norm_rand c) by (by rewrite Hn).
    rewrite (integrate_rng norm_rand (with_beta b c))
      by (change (n_acc (with_beta b c)) with (n_acc c); by rewrite Hn).
    by rewrite Hg.
Qed.

(** C5, in exact arithmetic.  With one accumulator, over the real numbers:
    a pass updates it to [x + dt*(I - kappa*x) + rhs*N], and the batch
    returns the same buffers and generator state whatever [beta] is. *)
Theorem single_accumulator_exact :
  (forall i st0 st,
     pass_of norm_rand c i st0 st ->
     x (integrate norm_rand c st) !!! 0%nat
     = (x st !!! 0%nat + dt c * (I_ c !!! 0%nat - kappa c * x st !!! 0%nat)
        + rhs c * draw norm_rand 0 (rng st))%R) /\
  (forall b resp0 rt0 g,
     simulateLCA norm_rand (with_beta b c) resp0 rt0 g
     = simulateLCA norm_rand c resp0 rt0 g).
Proof.
  split.
  - intros i st0 st Hp. destruct (pass_head _ _ _ _ _ Hp) as [Hx Hd _ _ _ _].
    rewrite n_acc_one in Hx, Hd. by apply integrate_one.
  - intros b resp0 rt0 g.
    pose proof (related_batch norm_rand norm_rand c (with_beta b c) eq eq
      eq_refl eq_refl eq_refl eq_refl eq_refl eq_refl eq_refl
      (fun a => eq_refl)
      (fun a a' (H : a = a') => f_equal (fun v => fge v (Z_ c)) H)
      (fun a a' (H : a = a') => f_equal (fun v => flt v (of_int 0)) H)
      (integrate_any_beta b) resp0 rt0 g g eq_refl) as Hb.
    destruct (simulateLCA norm_rand c resp0 rt0 g) as [[[r1 t1] g1]|]; [|done].
    destruct (simulateLCA norm_rand (with_beta b c) resp0 rt0 g) as [[[r2 t2] g2]|];
      [|done].
    destruct Hb as (Hr & Ht & Hg). simpl in Hr, Ht, Hg. by subst.
Qed.
End SingleAccumulator.

(** An instance: one accumulator with [beta = 2] and every draw 1. *)
Lemma single_accumulator_exact_witness :
  let c := Config 1 [1%R] 1%R 2%R 3%R 1%R 1%R 2 1 0 [0%R] in
  (forall i st0 st,
     pass_of ones c i st0 st ->
     x (integrate ones c st) !!! 0%nat
     = (x st !!! 0%nat + dt c * (I_ c !!! 0%nat - kappa c * x st !!! 0%nat)
        + rhs c * draw ones 0 (rng st))%R) /\
  (forall b resp0 rt0 g,
     simulateLCA ones (with_beta b c) resp0 rt0 g = simulateLCA ones c resp0 rt0 g).
Proof.
  intros c. apply (single_accumulator_exact ones c). reflexivity.
Defined.

(** One accumulator whose outcome depends on [beta] in double precision.  The
    run of [lone] reports the response 1;
    with [beta = 2^60] in place of 0 it reports no response: the update forms
    [(1 - 2^60) + 2^60], which is 0 and not 1. *)
Lemma beta_matters_counterexample :
  nAcc lone = 1 /\
  simulateLCA counter_rand lone [0] [0]%float 0%nat
  = Some ([1], [0.5]%float, 1%nat) /\
  simulateLCA counter_rand (with_beta 0x1p60%float lone) [0] [0]%float 0%nat
  = Some ([-1], [0.5]%float, 1%nat).
Proof. vm_compute. done. Qed.

(** On ordinary values the accumulator moves with [beta] by rounding: the
    first pass of [drift] leaves the accumulator where it was when
    [beta = 0], and one place below when [beta = 3]. *)
Example beta_changes_trajectory :
  let st0 := entry_state [0] [0]%float 0%nat in
  let after b :=
    x (step counter_rand (with_beta b drift) 0 (trial_start drift 0 st0)) !!! 0%nat in
  after 0%float = 0x1.4cccccccccccdp+0%float /\
  after 3%float = 0x1.4ccccccccccccp+0%float.
Proof. vm_compute. done. Qed.

(** ** Further properties of the function *)

Section Further.
Context {F : Type} {AF : Arith F} {G : Type}.
Variable norm_rand : G -> F * G.
Variable c : config F.
Implicit Type st : locals F G.

Abbreviation n := (n_acc c).
Abbreviation trials_n := (Z.to_nat (nTrials c)).

(** X1.  The batch returns, and what it reports for every trial is -1 or
    the index, counted from 1, of an accumulator: a number between 1 and
    [nAcc]. *)
Theorem response_in_range resp0 rt0 g :
  (trials_n <= length resp0)%nat -> (trials_n <= length rt0)%nat ->
  exists resp' rt' g',
    simulateLCA norm_rand c resp0 rt0 g = Some (resp', rt', g') /\
    forall i, (i < trials_n)%nat ->
      exists r, resp' !! i = Some r /\ (r = -1 \/ 1 <= r <= nAcc c).
Proof.
  intros Hr Ht.
  destruct (batch_report norm_rand c resp0 rt0 g Hr Ht) as (resp' & rt' & g' & Hrun & H).
  exists resp', rt', g'. split; [done|]. intros i Hi.
  destruct (H i Hi) as (sti & pre & _ & _ & _ & _ & _ & _ & Hw).
  destruct (last_crossing c _ n) as [z|] eqn:E.
  - exists (Z.of_nat z + 1). split; [done|]. right.
    apply last_crossing_Some in E as (Hz & _). unfold n_acc in Hz. lia.
  - exists (-1). destruct Hw as [_ Hw]. auto.
Qed.

Lemma trials_beyond k st st' j :
  trials norm_rand c k st = Some st' -> (k <= j)%nat ->
  resp st' !! j = resp st !! j /\ rt st' !! j = rt st !! j.
Proof.
  revert st'. induction k as [|k IH]; intros st' H Hj.
  - by injection H as <-.
  - rewrite trials_S in H.
    destruct (trials norm_rand c k st) as [st1|]; [|done].
    destruct (IH st1 eq_refl) as [<- <-]; [lia|].
    apply trial_buffers in H as [_ H]. apply H. lia.
Qed.

(** X2.  The batch returns the two buffers with the lengths they had, and
    with the cells from index [nTrials] on as they were: it writes the cells
    of its trials and no other; when [nTrials <= 0] it writes none. *)
Theorem buffers_beyond_untouched resp0 rt0 g :
  exists resp' rt' g',
    simulateLCA norm_rand c resp0 rt0 g = Some (resp', rt', g') /\
    length resp' = length resp0 /\ length rt' = length rt0 /\
    forall j, (trials_n <= j)%nat -> resp' !! j = resp0 !! j /\ rt' !! j = rt0 !! j.
Proof.
  unfold simulateLCA.
  destruct (trials_total norm_rand c trials_n (entry_state resp0 rt0 g)) as [st' E].
  rewrite E. exists (resp st'), (rt st'), (rng st'). split; [done|].
  destruct (trials_length _ _ _ _ _ E) as [Hl1 Hl2].
  split_and!; try done.
  intros j Hj. by apply (trials_beyond _ _ _ j E).
Qed.

(** When the loop goes on after a pass, the pass found no winner. *)
Lemma continue_no_winner i (st : locals F G) :
  length (x st) = n -> length (dummy st) = n ->
  continue c (step norm_rand c i st) = true ->
  last_crossing c (x (integrate norm_rand c st)) n = None.
Proof.
  intros Hx Hd Hc. pose proof (step_winner norm_rand c i st Hx Hd) as Hw.
  destruct (last_crossing c _ n); [|done].
  destruct Hw as [Hw _]. unfold continue in Hc. rewrite Hw in Hc.
  by rewrite andb_false_r in Hc.
Qed.

(** X4.  A pass of a trial that is followed by another pass left no
    accumulator at or above the threshold, and a counter below [maxiter]: the
    loop stops after the first pass in which an accumulator reaches the
    threshold. *)
Theorem continues_without_crossing i st0 st z :
  pass_of norm_rand c i st0 st ->
  continue c (step norm_rand c i st) = true ->
  (z < n)%nat ->
  fge (x (integrate norm_rand c st) !!! z) (Z_ c) = false /\
  iter st + 1 < maxiter c.
Proof.
  intros Hp Hc Hz. destruct (pass_head _ _ _ _ _ Hp) as [Hx Hd _ _ _ _].
  split.
  - pose proof (continue_no_winner i st Hx Hd Hc) as Hn.
    rewrite last_crossing_None in Hn. by apply Hn.
  - unfold continue in Hc. apply andb_true_iff in Hc as [Hc _].
    apply Z.ltb_lt in Hc. by rewrite step_iter in Hc.
Qed.

(** X5.  With [maxiter <= 1], also 0 or negative, the batch returns and
    every trial makes exactly one pass: the do-while loop tests the counter
    only after a pass, so the counter ends at 1 and the reaction time is
    [1*dt - dt/2]. *)
Theorem one_pass_when_maxiter_small resp0 rt0 g :
  maxiter c <= 1 ->
  (trials_n <= length resp0)%nat -> (trials_n <= length rt0)%nat ->
  exists resp' rt' g',
    simulateLCA norm_rand c resp0 rt0 g = Some (resp', rt', g') /\
    forall i, (i < trials_n)%nat ->
      exists pre,
        final_pass norm_rand c resp0 rt0 g i pre /\
        iter pre = 0 /\ iter (step norm_rand c i pre) = 1 /\
        rt' !! i = Some (of_int 1 * dt c - dt c / of_int 2)%A.
Proof.
  intros Hm Hr Ht.
  destruct (batch_report norm_rand c resp0 rt0 g Hr Ht) as (resp' & rt' & g' & Hrun & H).
  exists resp', rt', g'. split; [done|]. intros i Hi.
  destruct (H i Hi) as (sti & pre & Hh & _ & Hex & Hrt & H1 & H2 & _).
  cbv zeta in *.
  assert (Hit : iter (step norm_rand c i pre) = 1) by lia.
  exists pre. split_and!; try done.
  - rewrite step_iter in Hit. lia.
  - by rewrite Hrt, Hit.
Qed.

(** X8.  The clamp of a pass changes the values below 0 and no other, and
    only when [nonLinear] is 1: with any other value of the flag, also a
    nonzero one, every accumulator keeps the value the update gave it; with
    the flag at 1 a value below 0 becomes 0 and a value not below 0 is
    kept. *)
Theorem clamp_changes_negatives_only i st0 st z :
  pass_of norm_rand c i st0 st -> (z < n)%nat ->
  let u := x (integrate norm_rand c st) !!! z in
  let v := x (step norm_rand c i st) !!! z in
  (nonLinear c <> 1 -> v = u) /\
  (nonLinear c = 1 -> flt u (of_int 0) = false -> v = u) /\
  (nonLinear c = 1 -> flt u (of_int 0) = true -> v = of_int 0).
Proof.
  intros Hp Hz u v. destruct (pass_head _ _ _ _ _ Hp) as [Hx Hd _ _ _ _].
  unfold v. rewrite step_x by done. fold u. unfold clamp.
  split_and!.
  - intros Hnl. apply Z.eqb_neq in Hnl. by rewrite Hnl.
  - intros -> ->. done.
  - intros -> ->. done.
Qed.
End Further.

Section Passes.
Context {F : Type} {AF : Arith F} {G : Type}.
Variable norm_rand : G -> F * G.
Variable c : config F.
Implicit Type st : locals F G.

Abbreviation n := (n_acc c).
Abbreviation trials_n := (Z.to_nat (nTrials c)).

(** The loop of a trial, taken up again at one of its passes, returns what
    the trial's loop returns. *)
Lemma loop_resume i st0 st fuel last :
  pass_of norm_rand c i st0 st ->
  do_while norm_rand c fuel i (trial_start c i st0) = Some last ->
  exists fuel', do_while norm_rand c fuel' i st = Some last.
Proof.
  intros Hp Hrun. induction Hp as [|st Hp IH Hc]; [by exists fuel|].
  destruct IH as [[|f] Hf]; [done|]. simpl in Hf.
  unfold continue in Hc. rewrite Hc in Hf. by exists f.
Qed.

(** X9.  The batch returns, and a trial it reports as no response made no
    pass in which an accumulator reached the threshold: -1 is reported only
    when every pass of the trial left every accumulator below the
    threshold. *)
Theorem no_response_never_crossed resp0 rt0 g :
  (trials_n <= length resp0)%nat -> (trials_n <= length rt0)%nat ->
  exists resp' rt' g',
    simulateLCA norm_rand c resp0 rt0 g = Some (resp', rt', g') /\
    forall i, (i < trials_n)%nat -> resp' !! i = Some (-1) ->
      exists sti,
        trials norm_rand c i (entry_state resp0 rt0 g) = Some sti /\
        forall q z, pass_of norm_rand c i sti q -> (z < n)%nat ->
          fge (x (integrate norm_rand c q) !!! z) (Z_ c) = false.
Proof.
  intros Hr Ht.
  destruct (batch_report norm_rand c resp0 rt0 g Hr Ht) as (resp' & rt' & g' & Hrun & H).
  exists resp', rt', g'. split; [done|]. intros i Hi Hno.
  destruct (H i Hi) as (_ & pre & _ & _ & (sti & Hsti & Hp & Hdo) & _ & _ & _ & Hw).
  exists sti. split; [done|]. intros q z Hq Hz.
  destruct (pass_head _ _ _ _ _ Hp) as [Hx Hd Hwin _ _ _].
  destruct (pass_head _ _ _ _ _ Hq) as [Hxq Hdq _ _ _ _].
  assert (Hpre : last_crossing c (x (integrate norm_rand c pre)) n = None).
  { destruct (last_crossing c (x (integrate norm_rand c pre)) n) as [w|]; [|done].
    rewrite Hw in Hno. injection Hno. lia. }
  assert (Hlast : winner (step norm_rand c i pre) = false).
  { pose proof (step_winner norm_rand c i pre Hx Hd) as Hs.
    rewrite Hpre in Hs. destruct Hs as [-> _]. done. }
  assert (Hq' : last_crossing c (x (integrate norm_rand c q)) n = None).
  { destruct (continue c (step norm_rand c i q)) eqn:Ec.
    - by apply (continue_no_winner norm_rand c i).
    - destruct (loop_resume i sti q _ _ Hq Hdo) as [[|f] Hf]; [done|].
      simpl in Hf. unfold continue in Ec. rewrite Ec in Hf. injection Hf as Hf.
      pose proof (step_winner norm_rand c i q Hxq Hdq) as Hs.
      destruct (last_crossing c (x (integrate norm_rand c q)) n); [|done].
      destruct Hs as [Hs _]. rewrite Hf, Hlast in Hs. done. }
  rewrite last_crossing_None in Hq'. by apply Hq'.
Qed.

Lemma rng_after_add a b (g : G) :
  rng_after norm_rand (a + b) g = rng_after norm_rand b (rng_after norm_rand a g).
Proof.
  induction b as [|b IH]; [by rewrite Nat.add_0_r|].
  rewrite Nat.add_succ_r. simpl. by rewrite IH.
Qed.

(** At a pass, the generator has made [nAcc] calls for each pass before. *)
Lemma pass_rng i st0 st :
  pass_of norm_rand c i st0 st ->
  0 <= iter st /\
  rng st = rng_after norm_rand (n * Z.to_nat (iter st)) (rng st0).
Proof.
  induction 1 as [|st Hp [IH1 IH2] Hc].
  - unfold trial_start. rewrite init_arrays_frame. simpl. split; [done|].
    by rewrite Nat.mul_0_r.
  - destruct (pass_head _ _ _ _ _ Hp) as [Hx _ _ _ _ _].
    rewrite step_iter, step_rng by done. split; [lia|].
    rewrite IH2, <- rng_after_add. f_equal. lia.
Qed.

(** A trial that ends with its counter at [p] has made [nAcc * p] calls. *)
Lemma trial_rng i st st' :
  trial norm_rand c i st = Some st' ->
  exists p : nat,
    (1 <= p)%nat /\
    rng st' = rng_after norm_rand (n * p) (rng st) /\
    ((i < length (rt st))%nat -> rt st' !! i = Some (midpoint c (Z.of_nat p))).
Proof.
  intros H. apply trial_exit in H as (pre & Hp & Hc & _ & ->).
  destruct (pass_rng _ _ _ Hp) as [Hi Hg].
  destruct (pass_head _ _ _ _ _ Hp) as [Hx _ _ _ Hrt _].
  exists (S (Z.to_nat (iter pre))). split_and!; [lia | |].
  - unfold write_rt. simpl. rewrite step_rng by done.
    rewrite Hg, <- rng_after_add. f_equal. lia.
  - intros Hl. unfold write_rt. simpl. rewrite step_iter.
    replace (Z.of_nat (S (Z.to_nat (iter pre)))) with (iter pre + 1) by lia.
    apply list_lookup_insert_eq. by rewrite step_rt, Hrt.
Qed.

Lemma trials_rng k st st' :
  trials norm_rand c k st = Some st' -> (k <= length (rt st))%nat ->
  exists ps : list nat,
    length ps = k /\
    rng st' = rng_after norm_rand (n * sum_list ps) (rng st) /\
    forall i p, ps !! i = Some p ->
      (1 <= p)%nat /\ rt st' !! i = Some (midpoint c (Z.of_nat p)).
Proof.
  revert st'. induction k as [|k IH]; intros st' H Hk.
  - injection H as <-. exists []. split_and!; [done | by rewrite Nat.mul_0_r | done].
  - rewrite trials_S in H.
    destruct (trials norm_rand c k st) as [st1|] eqn:E; [|done].
    destruct (IH st1 eq_refl) as (ps & Hl & Hg & Hps); [lia|].
    destruct (trials_length _ _ _ _ _ E) as [_ Hlen].
    destruct (trial_rng k st1 st' H) as (p & Hp & Hg' & Hrt).
    exists (ps ++ [p]). split_and!.
    + rewrite length_app. simpl. lia.
    + rewrite Hg', Hg, <- rng_after_add. f_equal.
      rewrite sum_list_with_app. simpl. lia.
    + intros i q Hq. apply lookup_app_Some in Hq as [Hq | [Hi Hq]].
      * destruct (Hps i q Hq) as [Hq1 Hq2]. split; [done|].
        apply lookup_lt_Some in Hq. rewrite Hl in Hq.
        apply trial_buffers in H as [_ H]. destruct (H i) as [_ ->]; [lia | done].
      * rewrite Hl in Hi, Hq.
        apply list_lookup_singleton_Some in Hq as [Hq ->].
        assert (i = k) as -> by lia. split; [done|]. apply Hrt. lia.
Qed.

(** X3.  The batch returns, and leaves the generator where [nAcc] calls for
    every pass of every trial take it: if trial [i] made [p_i] passes, which
    its reaction time [p_i*dt - dt/2] shows, the state returned is the state
    passed in after [nAcc * (p_0 + ... )] calls of [norm_rand].  The
    generator is never set back between trials. *)
Theorem generator_advances_by_passes resp0 rt0 g :
  (trials_n <= length rt0)%nat ->
  exists resp' rt' g',
    simulateLCA norm_rand c resp0 rt0 g = Some (resp', rt', g') /\
    exists ps : list nat,
      length ps = trials_n /\
      g' = rng_after norm_rand (n * sum_list ps) g /\
      forall i p, ps !! i = Some p ->
        (1 <= p)%nat /\
        rt' !! i = Some (of_int (Z.of_nat p) * dt c - dt c / of_int 2)%A.
Proof.
  intros Ht. unfold simulateLCA.
  destruct (trials_total norm_rand c trials_n (entry_state resp0 rt0 g)) as [st' E].
  rewrite E. exists (resp st'), (rt st'), (rng st'). split; [done|].
  by apply (trials_rng _ _ _ E).
Qed.

Lemma trials_extend k m st stk stm i :
  (k <= m)%nat ->
  trials norm_rand c k st = Some stk -> trials norm_rand c m st = Some stm ->
  (i < k)%nat ->
  resp stm !! i = resp stk !! i /\ rt stm !! i = rt stk !! i.
Proof.
  intros Hkm Hk. revert stm. induction m as [|m IH]; intros stm Hm Hi.
  - assert (k = 0)%nat as -> by lia. lia.
  - destruct (decide (k = S m)) as [->|Hne].
    + rewrite Hk in Hm. by injection Hm as <-.
    + rewrite trials_S in Hm.
      destruct (trials norm_rand c m st) as [st1|]; [|done].
      destruct (IH ltac:(lia) st1 eq_refl Hi) as [<- <-].
      apply trial_buffers in Hm as [_ Hm]. apply Hm. lia.
Qed.

(** X6.  More trials change nothing for the trials before them: the batch
    of [m >= nTrials] trials reports for each of the first [nTrials] trials
    what the batch of [nTrials] trials reports, from the same buffers and
    generator state. *)
Theorem earlier_trials_unchanged (m : Z) resp0 rt0 g :
  nTrials c <= m ->
  exists resp1 rt1 g1 resp2 rt2 g2,
    simulateLCA norm_rand c resp0 rt0 g = Some (resp1, rt1, g1) /\
    simulateLCA norm_rand (with_nTrials m c) resp0 rt0 g = Some (resp2, rt2, g2) /\
    forall i, (i < trials_n)%nat ->
      resp2 !! i = resp1 !! i /\ rt2 !! i = rt1 !! i.
Proof.
  intros Hm. unfold simulateLCA.
  change (nTrials (with_nTrials m c)) with m.
  change (trials norm_rand (with_nTrials m c)) with (trials norm_rand c).
  destruct (trials_total norm_rand c trials_n (entry_state resp0 rt0 g)) as [st1 E1].
  destruct (trials_total norm_rand c (Z.to_nat m) (entry_state resp0 rt0 g)) as [st2 E2].
  rewrite E1, E2.
  exists (resp st1), (rt st1), (rng st1), (resp st2), (rt st2), (rng st2).
  split_and!; try done.
  intros i Hi.
  apply (trials_extend trials_n (Z.to_nat m) (entry_state resp0 rt0 g) st1 st2 i);
    try done. lia.
Qed.
End Passes.

Section FreshTrial.
Context {F : Type} {AF : Arith F} {G : Type}.
Variable norm_rand : G -> F * G.
Variable c : config F.

Abbreviation n := (n_acc c).

(** The update reads the accumulators and the generator, and nothing else of
    the state. *)
Lemma integrate_ext (st1 st2 : locals F G) :
  related eq eq n st1 st2 ->
  (forall z, (z < n)%nat ->
     x (integrate norm_rand c st1) !!! z = x (integrate norm_rand c st2) !!! z) /\
  rng (integrate norm_rand c st1) = rng (integrate norm_rand c st2).
Proof.
  intros ([Hx1 Hd1] & [Hx2 Hd2] & HE & _ & _ & _ & _ & Hg). split.
  - intros z Hz. rewrite !integrate_x by done.
    rewrite (HE z Hz), Hg.
    rewrite (sum_upto_ext n (dummy (scale_dummy c st1)) (dummy (scale_dummy c st2)));
      [done|].
    intros z' Hz'.
    destruct (scale_dummy_spec c st1 Hd1) as [_ ->]; [|done].
    destruct (scale_dummy_spec c st2 Hd2) as [_ ->]; [|done].
    by rewrite (HE z' Hz').
  - rewrite !integrate_rng by done. by rewrite Hg.
Qed.

(** X7.  A trial starts afresh: what it returns in the buffers and the
    generator depends on the buffers and the generator state it is entered
    with, and not on what the accumulators, [dummy], [sum], the counter and
    the flag hold from the trial before. *)
Theorem trial_ignores_stale_locals i (st1 st2 : locals F G) :
  resp st1 = resp st2 -> rt st1 = rt st2 -> rng st1 = rng st2 ->
  exists a b,
    trial norm_rand c i st1 = Some a /\ trial norm_rand c i st2 = Some b /\
    resp a = resp b /\ rt a = rt b /\ rng a = rng b.
Proof.
  intros Hr Ht Hg.
  pose proof (related_trial norm_rand norm_rand c c eq eq
    eq_refl eq_refl eq_refl eq_refl eq_refl eq_refl
    (fun a => eq_refl)
    (fun a a' (H : a = a') => f_equal (fun v => fge v (Z_ c)) H)
    (fun a a' (H : a = a') => f_equal (fun v => flt v (of_int 0)) H)
    integrate_ext i st1 st2 (conj Hr (conj Ht Hg))) as Hb.
  destruct (trial norm_rand c i st1) as [a|]; [|done].
  destruct (trial norm_rand c i st2) as [b|]; [|done].
  by exists a, b.
Qed.
End FreshTrial.

(** An instance: the second trial of [demo] entered with the locals of the
    entry state, and entered with other locals. *)
Lemma trial_ignores_stale_locals_witness :
  let st1 := entry_state [0; 0; 0] [0; 0; 0]%float 5%nat in
  let st2 := Locals [1; 2]%float [3]%float 4%float 7 true [0; 0; 0] [0; 0; 0]%float 5%nat in
  exists a b,
    trial counter_rand demo 1 st1 = Some a /\ trial counter_rand demo 1 st2 = Some b /\
    resp a = resp b /\ rt a = rt b /\ rng a = rng b.
Proof.
  intros st1 st2.
  apply (trial_ignores_stale_locals counter_rand demo 1 st1 st2); reflexivity.
Defined.

(** ** Instances of the further properties *)

(** An instance: the run of [demo] from the generator state 0. *)
Lemma response_in_range_witness :
  exists resp' rt' g',
    simulateLCA counter_rand demo [0; 0; 0] [0; 0; 0]%float 0%nat = Some (resp', rt', g') /\
    forall i, (i < Z.to_nat (nTrials demo))%nat ->
      exists r, resp' !! i = Some r /\ (r = -1 \/ 1 <= r <= nAcc demo).
Proof.
  apply (response_in_range counter_rand demo [0; 0; 0] [0; 0; 0]%float 0%nat);
    vm_compute; lia.
Defined.

(** The run of [demo] with buffers of five cells: three trials of seven
    passes, two draws for each pass, and the cells 3 and 4 as they were. *)
Example demo_run :
  simulateLCA counter_rand demo [7; 7; 7; 7; 7] [9; 9; 9; 9; 9]%float 0%nat
  = Some ([1; 1; 1; 7; 7], [0.8125; 0.8125; 0.8125; 9; 9]%float, 42%nat).
Proof. vm_compute. reflexivity. Qed.

(** An instance: the first pass of the first trial of [demo], which is
    followed by another. *)
Lemma continues_without_crossing_witness :
  let st0 := entry_state [0; 0; 0] [0; 0; 0]%float 0%nat in
  fge (x (integrate counter_rand demo (trial_start demo 0 st0)) !!! 1%nat) (Z_ demo) = false /\
  iter (trial_start demo 0 st0) + 1 < maxiter demo.
Proof.
  intros st0.
  apply (continues_without_crossing counter_rand demo 0 st0 (trial_start demo 0 st0) 1).
  - apply pass_first.
  - vm_compute. reflexivity.
  - vm_compute. lia.
Defined.

(** An instance: [no_budget], where [maxiter = 0]. *)
Lemma one_pass_when_maxiter_small_witness :
  exists resp' rt' g',
    simulateLCA counter_rand no_budget [0; 0] [0; 0]%float 0%nat = Some (resp', rt', g') /\
    forall i, (i < Z.to_nat (nTrials no_budget))%nat ->
      exists pre,
        final_pass counter_rand no_budget [0; 0] [0; 0]%float 0%nat i pre /\
        iter pre = 0 /\ iter (step counter_rand no_budget i pre) = 1 /\
        rt' !! i = Some (of_int 1 * dt no_budget - dt no_budget / of_int 2)%A.
Proof.
  apply (one_pass_when_maxiter_small counter_rand no_budget [0; 0] [0; 0]%float 0%nat);
    vm_compute; try lia. discriminate.
Defined.

(** The run of [no_budget]: one pass for each trial, two draws for each
    pass. *)
Example no_budget_run :
  simulateLCA counter_rand no_budget [0; 0] [0; 0]%float 0%nat
  = Some ([-1; -1], [0.0625; 0.0625]%float, 4%nat).
Proof. vm_compute. reflexivity. Qed.

(** An instance: the first pass of the first trial of [demo], second
    accumulator. *)
Lemma clamp_changes_negatives_only_witness :
  let st0 := entry_state [0; 0; 0] [0; 0; 0]%float 0%nat in
  let u := x (integrate counter_rand demo (trial_start demo 0 st0)) !!! 1%nat in
  let v := x (step counter_rand demo 0 (trial_start demo 0 st0)) !!! 1%nat in
  (nonLinear demo <> 1 -> v = u) /\
  (nonLinear demo = 1 -> flt u (of_int 0) = false -> v = u) /\
  (nonLinear demo = 1 -> flt u (of_int 0) = true -> v = of_int 0).
Proof.
  intros st0.
  apply (clamp_changes_negatives_only counter_rand demo 0 st0 (trial_start demo 0 st0) 1).
  - apply pass_first.
  - vm_compute. lia.
Defined.

(** An instance: the run of [demo] from the generator state 0. *)
Lemma no_response_never_crossed_witness :
  exists resp' rt' g',
    simulateLCA counter_rand demo [0; 0; 0] [0; 0; 0]%float 0%nat = Some (resp', rt', g') /\
    forall i, (i < Z.to_nat (nTrials demo))%nat -> resp' !! i = Some (-1) ->
      exists sti,
        trials counter_rand demo i (entry_state [0; 0; 0] [0; 0; 0]%float 0%nat)
        = Some sti /\
        forall q z, pass_of counter_rand demo i sti q -> (z < n_acc demo)%nat ->
          fge (x (integrate counter_rand demo q) !!! z) (Z_ demo) = false.
Proof.
  apply (no_response_never_crossed counter_rand demo [0; 0; 0] [0; 0; 0]%float 0%nat);
    vm_compute; lia.
Defined.

(** An instance: the run of [demo] from the generator state 0. *)
Lemma generator_advances_by_passes_witness :
  exists resp' rt' g',
    simulateLCA counter_rand demo [0; 0; 0] [0; 0; 0]%float 0%nat = Some (resp', rt', g') /\
    exists ps : list nat,
      length ps = Z.to_nat (nTrials demo) /\
      g' = rng_after counter_rand (n_acc demo * sum_list ps) 0%nat /\
      forall i p, ps !! i = Some p ->
        (1 <= p)%nat /\
        rt' !! i = Some (of_int (Z.of_nat p) * dt demo - dt demo / of_int 2)%A.
Proof.
  apply (generator_advances_by_passes counter_rand demo [0; 0; 0] [0; 0; 0]%float 0%nat).
  vm_compute. lia.
Defined.

(** An instance: [tie] has one trial; with five trials the first is
    reported the same. *)
Lemma earlier_trials_unchanged_witness :
  exists resp1 rt1 g1 resp2 rt2 g2,
    simulateLCA counter_rand tie [0; 0; 0; 0; 0] [0; 0; 0; 0; 0]%float 0%nat
    = Some (resp1, rt1, g1) /\
    simulateLCA counter_rand (with_nTrials 5 tie) [0; 0; 0; 0; 0] [0; 0; 0; 0; 0]%float 0%nat
    = Some (resp2, rt2, g2) /\
    forall i, (i < Z.to_nat (nTrials tie))%nat ->
      resp2 !! i = resp1 !! i /\ rt2 !! i = rt1 !! i.
Proof.
  apply (earlier_trials_unchanged counter_rand tie 5). vm_compute. discriminate.
Defined.

(** ** A threshold that is NaN *)

Section NaNThreshold.
Context {G : Type}.
Variable norm_rand : G -> float * G.
Variable c : config float.

Lemma fge_nan_r (v : float) : fge v nan = false.
Proof. simpl. rewrite leb_spec, Prim2SF_nan. reflexivity. Qed.

(** X10.  With the threshold NaN the test [x[z] >= Z] is false for every
    value: the batch returns, every trial is reported as no response, and,
    for [maxiter >= 1], with the reaction time [maxiter*dt - dt/2]. *)
Theorem nan_threshold_no_response resp0 rt0 g :
  Z_ c = nan ->
  (Z.to_nat (nTrials c) <= length resp0)%nat ->
  (Z.to_nat (nTrials c) <= length rt0)%nat ->
  exists resp' rt' g',
    simulateLCA norm_rand c resp0 rt0 g = Some (resp', rt', g') /\
    forall i, (i < Z.to_nat (nTrials c))%nat ->
      resp' !! i = Some (-1) /\
      (1 <= maxiter c -> rt' !! i = Some (midpoint c (maxiter c))).
Proof.
  intros HZ Hr Ht.
  destruct (batch_report norm_rand c resp0 rt0 g Hr Ht) as (resp' & rt' & g' & Hrun & H).
  exists resp', rt', g'. split; [done|]. intros i Hi.
  destruct (H i Hi) as (sti & pre & _ & _ & _ & Hrt & H1 & H2 & Hw).
  cbv zeta in *.
  assert (Hno : last_crossing c (x (integrate norm_rand c pre)) (n_acc c) = None).
  { apply last_crossing_None. intros z Hz. rewrite HZ. apply fge_nan_r. }
  rewrite Hno in Hw. destruct Hw as [Hge Hresp]. split; [done|].
  intros Hm. rewrite Hrt.
  assert (iter (step norm_rand c i pre) = maxiter c) as -> by lia. done.
Qed.
End NaNThreshold.

(** An instance: [nan_threshold], whose accumulators start at 4. *)
Lemma nan_threshold_no_response_witness :
  exists resp' rt' g',
    simulateLCA counter_rand nan_threshold [0; 0] [0; 0]%float 0%nat
    = Some (resp', rt', g') /\
    forall i, (i < Z.to_nat (nTrials nan_threshold))%nat ->
      resp' !! i = Some (-1) /\
      (1 <= maxiter nan_threshold ->
       rt' !! i = Some (midpoint nan_threshold (maxiter nan_threshold))).
Proof.
  apply (nan_threshold_no_response counter_rand nan_threshold [0; 0] [0; 0]%float 0%nat).
  - reflexivity.
  - vm_compute. lia.
  - vm_compute. lia.
Defined.

(** ** Inhibition comes from the other accumulators *)

Section Lateral.
Context {G : Type}.
Variable norm_rand : G -> R * G.
Variable c : config R.

Lemma sum_upto_others (d : list R) k z :
  sum_upto k d
  = if decide (z < k)%nat then (sum_others k d z + d !!! z)%R else sum_others k d z.
Proof.
  induction k as [|k IH]; simpl.
  - by destruct (decide (z < 0)%nat); [lia|].
  - rewrite IH. destruct (Nat.eqb_spec k z) as [->|Hne].
    + destruct (decide (z < z)%nat); [lia|].
      by destruct (decide (z < S z)%nat); [|lia].
    + destruct (decide (z < k)%nat); destruct (decide (z < S k)%nat);
        try lia; simpl; ring.
Qed.

(** X11.  In exact arithmetic, to take the whole inhibition from an
    accumulator and give its own contribution back, as line 87 does, is to
    take from it the contributions [x[j]*dt*beta] of the other accumulators
    only: an accumulator does not inhibit itself. *)
Theorem inhibition_from_others i st0 st z :
  pass_of norm_rand c i st0 st -> (z < n_acc c)%nat ->
  x (integrate norm_rand c st) !!! z
  = (x st !!! z + dt c * (I_ c !!! z) - kappa c * (x st !!! z) * dt c
     - sum_others (n_acc c) (contribution c (x st)) z
     + rhs c * draw norm_rand z (rng st))%R.
Proof.
  intros Hp Hz. destruct (pass_head _ _ _ _ _ Hp) as [Hx Hd _ _ _ _].
  rewrite integrate_x by done.
  rewrite (sum_upto_ext (n_acc c) (dummy (scale_dummy c st)) (contribution c (x st))).
  - rewrite (sum_upto_others _ _ z). destruct (decide (z < n_acc c)%nat); [|lia].
    rewrite contribution_lookup by lia. simpl. ring.
  - intros z' Hz'. rewrite contribution_lookup by lia. by apply scale_dummy_spec.
Qed.
End Lateral.

(** An instance: three accumulators, every draw 1. *)
Lemma inhibition_from_others_witness :
  let c := Config 3 [1; 2; 3]%R 1%R 2%R 9%R 1%R 1%R 4 1 0 [1; 1; 1]%R in
  let st0 := entry_state [0] [0%R] 0%nat in
  let st := trial_start c 0 st0 in
  x (integrate ones c st) !!! 1%nat
  = (x st !!! 1%nat + dt c * (I_ c !!! 1%nat) - kappa c * (x st !!! 1%nat) * dt c
     - sum_others (n_acc c) (contribution c (x st)) 1
     + rhs c * draw ones 1 (rng st))%R.
Proof.
  intros c st0 st.
  apply (inhibition_from_others ones c 0 st0 st 1).
  - apply pass_first.
  - vm_compute. lia.
Defined.

(** ** The sign of the noise scale *)

Lemma for_ext {St : Type} n (body1 body2 : nat -> St -> St) (st : St) :
  (forall k a, body1 k a = body2 k a) -> for_ n body1 st = for_ n body2 st.
Proof.
  intros H. induction n as [|n IH]; simpl; [done|]. by rewrite IH, H.
Qed.

Section SameFactor.
Context {F : Type} {AF : Arith F} {G : Type}.
Variable norm_rand : G -> F * G.
Variable c : config F.
Variable v : F.
Hypothesis same_rhs : rhs (with_s v c) = rhs c.

Lemma update_x_with_s (st : locals F G) :
  update_x norm_rand (with_s v c) st = update_x norm_rand c st.
Proof.
  unfold update_x. change (n_acc (with_s v c)) with (n_acc c).
  apply for_ext. intros k a. simpl. by rewrite same_rhs.
Qed.

Lemma step_with_s i (st : locals F G) :
  step norm_rand (with_s v c) i st = step norm_rand c i st.
Proof.
  unfold step, integrate. rewrite update_x_with_s. reflexivity.
Qed.

Lemma do_while_with_s fuel i (st : locals F G) :
  do_while norm_rand (with_s v c) fuel i st = do_while norm_rand c fuel i st.
Proof.
  revert st. induction fuel as [|fuel IH]; intros st; simpl; [done|].
  rewrite step_with_s, IH. reflexivity.
Qed.

Lemma trial_with_s i (st : locals F G) :
  trial norm_rand (with_s v c) i st = trial norm_rand c i st.
Proof.
  unfold trial. change (maxiter (with_s v c)) with (maxiter c).
  change (trial_start (with_s v c) i st) with (trial_start c i st).
  rewrite do_while_with_s. reflexivity.
Qed.

(** The noise scale enters a run through the factor of line 47 only. *)
Lemma run_with_s resp0 rt0 g :
  simulateLCA norm_rand (with_s v c) resp0 rt0 g = simulateLCA norm_rand c resp0 rt0 g.
Proof.
  unfold simulateLCA, trials. change (nTrials (with_s v c)) with (nTrials c).
  rewrite (for_ext _ _ (fun i r => match r with
                                   | Some st => trial norm_rand c i st
                                   | None => None
                                   end)); [done|].
  intros k [st|]; [apply trial_with_s | done].
Qed.
End SameFactor.

Section SignOfS.
Local Open Scope float_scope.

Lemma round_aux_opp sg m e l :
  binary_round_aux prec emax (negb sg) m e l
  = SFopp (binary_round_aux prec emax sg m e l).
Proof.
  unfold binary_round_aux.
  destruct (shr_fexp prec emax m e l) as [r1 e1].
  destruct (shr_fexp prec emax _ e1 loc_Exact) as [r2 e2].
  destruct (shr_m r2); [done | | done].
  by destruct (Z.leb _ _).
Qed.

Lemma SFmul_opp_r A B : SF64mul A (SFopp B) = SFopp (SF64mul A B).
Proof.
  unfold SF64mul.
  destruct A as [sa|sa| |sa ma ea], B as [sb|sb| |sb mb eb];
    cbn [SFmul SFopp]; rewrite <- ?negb_xorb_r; try done.
  apply round_aux_opp.
Qed.

Lemma SFmul_opp_l A B : SF64mul (SFopp A) B = SFopp (SF64mul A B).
Proof.
  unfold SF64mul.
  destruct A as [sa|sa| |sa ma ea], B as [sb|sb| |sb mb eb];
    cbn [SFmul SFopp]; rewrite <- ?negb_xorb_l; try done.
  apply round_aux_opp.
Qed.

Lemma SFopp_involutive A : SFopp (SFopp A) = A.
Proof. destruct A; simpl; by rewrite ?negb_involutive. Qed.

(** The factor of line 47 is the same for [s] and [-s]: both products are
    rounded the same way. *)
Lemma rhs_sign (c : config float) : rhs (with_s (- s c) c) = rhs c.
Proof.
  unfold rhs. cbn [fsqrt fmul binary64 with_s s dt]. f_equal.
  apply Prim2SF_inj. rewrite !mul_spec, opp_spec.
  by rewrite !SFmul_opp_r, SFmul_opp_l, SFopp_involutive.
Qed.

(** X12.  In double precision the sign of [s] has no effect: line 47 squares
    [s], and the batch returns for [-s] exactly what it returns for [s]. *)
Theorem sign_of_s_ignored {G : Type} (norm_rand : G -> float * G)
    (c : config float) resp0 rt0 g :
  simulateLCA norm_rand (with_s (- s c) c) resp0 rt0 g
  = simulateLCA norm_rand c resp0 rt0 g.
Proof. apply run_with_s. apply rhs_sign. Qed.
End SignOfS.

(** ** One accumulator that is NaN *)

Section NaNSpreads.
Context {G : Type}.
Variable norm_rand : G -> float * G.
Variable c : config float.
Local Open Scope float_scope.

Lemma mul_nan_l y : nan * y = nan.
Proof. apply Prim2SF_inj. rewrite mul_spec, Prim2SF_nan. reflexivity. Qed.

Lemma add_nan_r y : y + nan = nan.
Proof.
  apply Prim2SF_inj. rewrite add_spec, Prim2SF_nan. unfold SF64add.
  by destruct (Prim2SF y).
Qed.

Lemma sub_nan_r y : y - nan = nan.
Proof.
  apply Prim2SF_inj. rewrite sub_spec, Prim2SF_nan. unfold SF64sub.
  by destruct (Prim2SF y).
Qed.

Lemma sum_upto_nan k (d : list float) z0 :
  (z0 < k)%nat -> d !!! z0 = nan -> sum_upto k d = nan.
Proof.
  intros Hz Hd. induction k as [|k IH]; [lia|]. simpl.
  destruct (decide (z0 = k)) as [->|Hne].
  - rewrite Hd. apply add_nan_r.
  - rewrite IH by lia. apply add_nan_l.
Qed.

(** The sum of line 82 carries a NaN to every accumulator. *)
Lemma nan_spreads_in_pass (st : locals float G) z0 :
  length (x st) = n_acc c -> length (dummy st) = n_acc c ->
  (z0 < n_acc c)%nat -> x st !!! z0 = nan ->
  forall z, (z < n_acc c)%nat -> x (integrate norm_rand c st) !!! z = nan.
Proof.
  intros Hx Hd Hz0 Hnan z Hz. rewrite integrate_x by done.
  rewrite (sum_upto_nan _ _ z0 Hz0).
  - cbn [fadd fsub binary64]. by rewrite sub_nan_r, !add_nan_l.
  - destruct (scale_dummy_spec c st Hd) as [_ ->]; [|done].
    rewrite Hnan. cbn [fmul binary64]. by rewrite !mul_nan_l.
Qed.

(** X14.  In double precision one accumulator that is NaN at the head of a
    pass makes every accumulator NaN in that pass, through the sum of line
    82; for [maxiter >= 1] the trial then returns as no response with the
    reaction time [maxiter*dt - dt/2].  So a NaN among the start points
    [x0] makes every trial a no response. *)
Theorem one_nan_is_no_response i st0 pre z0 :
  (1 <= maxiter c)%Z ->
  (i < length (resp st0))%nat -> (i < length (rt st0))%nat ->
  pass_of norm_rand c i st0 pre ->
  (z0 < n_acc c)%nat -> x pre !!! z0 = nan ->
  (forall z, (z < n_acc c)%nat -> x (integrate norm_rand c pre) !!! z = nan) /\
  exists last,
    trial norm_rand c i st0 = Some (write_rt c i last) /\
    iter last = maxiter c /\
    resp (write_rt c i last) !! i = Some (-1)%Z /\
    rt (write_rt c i last) !! i = Some (midpoint c (maxiter c)).
Proof.
  intros Hm Hr Ht Hp Hz0 Hnan0.
  destruct (pass_head _ _ _ _ _ Hp) as [Hx Hd _ _ _ _].
  pose proof (nan_spreads_in_pass pre z0 Hx Hd Hz0 Hnan0) as Hnan.
  split; [exact Hnan|].
  destruct (trial_total norm_rand c i st0) as [st' Hrun].
  destruct (trial_exit norm_rand c i st0 st' Hrun) as (pre' & Hp' & Hc & Hdo & ->).
  pose proof (pass_head _ _ _ _ _ Hp') as Hh.
  exists (step norm_rand c i pre'). split; [done|].
  destruct (do_while_resume norm_rand c i st0 pre _ _ Hp Hdo) as [fuel' Hres].
  pose proof (nan_loop norm_rand c i st0 fuel' pre _ (pass_head _ _ _ _ _ Hp) Hnan Hres)
    as Hw.
  destruct (exit_facts norm_rand c i st0 pre' Hh Hc) as (H1 & H2 & Hrt & Hlc).
  destruct (last_crossing c _ _); [destruct Hlc; congruence|].
  destruct Hlc as (_ & Hge & Hresp).
  assert (Hit : iter (step norm_rand c i pre') = maxiter c) by lia.
  split_and!; try done.
  - unfold write_rt. simpl. rewrite Hresp. by apply list_lookup_insert_eq.
  - unfold write_rt. simpl. rewrite Hit. apply list_lookup_insert_eq.
    by rewrite Hrt.
Qed.
End NaNSpreads.

(** An instance: the first of two start points is NaN. *)
Lemma one_nan_is_no_response_witness :
  let c := Config 2 [1; 1]%float 0%float 0.25%float 0.5%float 0%float 1%float
             3 1 0 [nan; 0]%float in
  let st0 := entry_state [0] [0]%float 0%nat in
  (forall z, (z < n_acc c)%nat ->
     x (integrate counter_rand c (trial_start c 0 st0)) !!! z = nan) /\
  exists last,
    trial counter_rand c 0 st0 = Some (write_rt c 0 last) /\
    iter last = maxiter c /\
    resp (write_rt c 0 last) !! 0%nat = Some (-1) /\
    rt (write_rt c 0 last) !! 0%nat = Some (midpoint c (maxiter c)).
Proof.
  intros c st0.
  apply (one_nan_is_no_response counter_rand c 0 st0 (trial_start c 0 st0) 0).
  - vm_compute. discriminate.
  - simpl. lia.
  - simpl. lia.
  - apply pass_first.
  - vm_compute. lia.
  - vm_compute. reflexivity.
Defined.

(** ** No inhibition *)

Section Independent.
Context {G : Type}.
Variable norm_rand : G -> R * G.
Variable c : config R.

Lemma sum_upto_zero k (d : list R) :
  (forall z, (z < k)%nat -> d !!! z = 0%R) -> sum_upto k d = 0%R.
Proof.
  intros H. induction k as [|k IH]; simpl; [done|].
  rewrite IH by (intros; apply H; lia). rewrite H by lia. lra.
Qed.

(** X13.  In exact arithmetic, with [beta = 0] the accumulators of a pass do
    not interact: the new value of accumulator [z] is
    [x[z] + dt*I[z] - kappa*x[z]*dt + rhs*N], whatever the other
    accumulators hold. *)
Theorem no_inhibition_without_beta i st0 st z :
  beta c = 0%R ->
  pass_of norm_rand c i st0 st -> (z < n_acc c)%nat ->
  x (integrate norm_rand c st) !!! z
  = (x st !!! z + dt c * (I_ c !!! z) - kappa c * (x st !!! z) * dt c
     + rhs c * draw norm_rand z (rng st))%R.
Proof.
  intros Hb Hp Hz. destruct (pass_head _ _ _ _ _ Hp) as [Hx Hd _ _ _ _].
  assert (Hz0 : forall z', (z' < n_acc c)%nat ->
            dummy (scale_dummy c st) !!! z' = 0%R).
  { intros z' Hz'. destruct (scale_dummy_spec c st Hd) as [_ ->]; [|done].
    rewrite Hb. simpl. ring. }
  rewrite integrate_x by done.
  rewrite sum_upto_zero by done. rewrite Hb. simpl. ring.
Qed.
End Independent.

(** An instance: three accumulators with different values, every draw 1. *)
Lemma no_inhibition_without_beta_witness :
  let c := Config 3 [1; 2; 3]%R 1%R 0%R 9%R 1%R 1%R 4 1 0 [1; 5; 7]%R in
  let st0 := entry_state [0] [0%R] 0%nat in
  let st := trial_start c 0 st0 in
  x (integrate ones c st) !!! 1%nat
  = (x st !!! 1%nat + dt c * (I_ c !!! 1%nat) - kappa c * (x st !!! 1%nat) * dt c
     + rhs c * draw ones 1 (rng st))%R.
Proof.
  intros c st0 st.
  apply (no_inhibition_without_beta ones c 0 st0 st 1).
  - reflexivity.
  - apply pass_first.
  - vm_compute. lia.
Defined.
